(** * argo: a shallow embedding of the command line parser

    The development follows [argo.go] function by function, and takes
    the registry-level [Parse] from the second source file.  Go strings
    are byte strings, so [string] (a list of [ascii]) is the model and
    [String.length] is Go's [len].  Pointers are optional locations into
    an explicit heap, maps are [gmap]s that may be nil, and a run of the
    program either returns, panics or (for the only loop without a
    structural bound) runs out of fuel. *)

From Stdlib Require Import Ascii String.
From stdpp Require Import gmap strings list fin_maps.

Local Open Scope string_scope.

(** ** The fragment of Go's [strings] package the source calls *)

Module GoStrings.

(** [strings.HasPrefix(s, prefix)] *)
Fixpoint HasPrefix (s prefix : string) : bool :=
  match prefix, s with
  | EmptyString, _ => true
  | String _ _, EmptyString => false
  | String p prefix', String c s' => Ascii.eqb c p && HasPrefix s' prefix'
  end.

(** The bytes of a string, first to last, and back. *)
Fixpoint bytes (s : string) : list ascii :=
  match s with
  | EmptyString => []
  | String c s' => c :: bytes s'
  end.

Fixpoint of_bytes (l : list ascii) : string :=
  match l with
  | [] => EmptyString
  | c :: l' => String c (of_bytes l')
  end.

Definition rev_string (s : string) : string := of_bytes (rev (bytes s)).

(** [strings.HasSuffix(s, suffix)] *)
Definition HasSuffix (s suffix : string) : bool :=
  HasPrefix (rev_string s) (rev_string suffix).

(** Membership of a byte in an ASCII cutset. *)
Fixpoint in_cutset (c : ascii) (cutset : string) : bool :=
  match cutset with
  | EmptyString => false
  | String d cutset' => Ascii.eqb c d || in_cutset c cutset'
  end.

(** [strings.TrimLeft(s, cutset)]: for an ASCII cutset Go drops the
    leading bytes that belong to the cutset, one byte at a time. *)
Fixpoint TrimLeft (s cutset : string) : string :=
  match s with
  | EmptyString => EmptyString
  | String c s' => if in_cutset c cutset then TrimLeft s' cutset else s
  end.

(** [strings.TrimRight(s, cutset)] *)
Definition TrimRight (s cutset : string) : string :=
  rev_string (TrimLeft (rev_string s) cutset).

(** [strings.Trim(s, cutset)] *)
Definition Trim (s cutset : string) : string :=
  TrimRight (TrimLeft s cutset) cutset.

(** [strings.Split(s, sep)] for a separator of one byte, which is the
    only way the source calls it: the pieces between the separators,
    empty pieces included, so that the result is never empty. *)
Fixpoint Split (s : string) (sep : ascii) : list string :=
  match s with
  | EmptyString => [EmptyString]
  | String c s' =>
      if Ascii.eqb c sep then EmptyString :: Split s' sep
      else match Split s' sep with
           | [] => [String c EmptyString]
           | piece :: pieces => String c piece :: pieces
           end
  end.

(** [strings.ReplaceAll(s, old, "")] for [old] of one byte: every
    occurrence of the byte is deleted. *)
Fixpoint DeleteAll (s : string) (old : ascii) : string :=
  match s with
  | EmptyString => EmptyString
  | String c s' =>
      if Ascii.eqb c old then DeleteAll s' old else String c (DeleteAll s' old)
  end.

(** [s[:n]] for [n <= len(s)] *)
Fixpoint slice_to (s : string) (n : nat) : string :=
  match n, s with
  | S n', String c s' => String c (slice_to s' n')
  | _, _ => EmptyString
  end.

End GoStrings.

Import GoStrings.

(** [len(value)] *)
Abbreviation len := String.length (only parsing).

(** ** Sanitising helpers *)

(** remove all whitespaces from a string *)
Definition removeWhitespaces (value : string) : string :=
  DeleteAll value " "%char.

(** trim all whitespaces from a string *)
Definition trimWhitespaces (value : string) : string :=
  Trim value " ".

(** ** Token classifier *)

(** Validate if the command is a flag or not *)
Definition isFlag (value : string) : bool :=
  (2 <=? len value)%nat && (len value =? 2)%nat && negb (HasPrefix value "-").

(** Validate is the command is a short hand flag or not *)
Definition isShortFlag (value : string) : bool :=
  isFlag value && (len value =? 2)%nat && negb (HasPrefix value "--").

(** Validate if the command is inverted or not *)
Definition isInvertedFlag (value : string) : bool * string :=
  if isFlag value && HasPrefix value "--no-"
  then (true, TrimLeft value "--no-")
  else (false, "").

Definition isUnsupportedFlag (value : string) : bool :=
  if (2 <=? len value)%nat then
    if (len value =? 2)%nat
    then negb (HasPrefix value "-") || HasPrefix value "--"
    else negb (HasPrefix value "--") || HasPrefix value "---"
  else false.

Definition isVariadicArg (value : string) : bool * string :=
  if negb (isFlag value) && HasSuffix value "..."
  then (true, TrimRight value "...")
  else (false, "").

(** [formatCommandValues]: the inner loop over the parts of one value. *)
Fixpoint appendParts (formatted : list string) (parts : list string) : list string :=
  match parts with
  | [] => formatted
  | part :: parts' =>
      if negb (String.eqb (Trim part " ") "")
      then appendParts (formatted ++ [part]) parts'
      else appendParts formatted parts'
  end.

Fixpoint formatLoop (formatted : list string) (values : list string) : list string :=
  match values with
  | [] => formatted
  | value :: values' =>
      if isFlag value
      then formatLoop (appendParts formatted (Split value "="%char)) values'
      else formatLoop (formatted ++ [value]) values'
  end.

Definition formatCommandValues (values : list string) : list string :=
  formatLoop [] values.

(** ** Data model *)

(** A pointer is nil ([None]) or a location of the heap. *)
Abbreviation ptr := (option nat).

(** A Go map may be nil: reading a nil map finds nothing, writing to it
    panics. *)
Abbreviation gomap V := (option (gmap string V)).

(** [v, ok := m[k]] *)
Definition maplookup {V} (m : gomap V) (k : string) : option V :=
  match m with
  | None => None
  | Some g => g !! k
  end.

(** [m[k]], the zero value when the key is absent *)
Definition mapget {V} (zero : V) (m : gomap V) (k : string) : V :=
  match maplookup m k with
  | Some v => v
  | None => zero
  end.

(** Flag holds the metadata for that specific flag *)
Module Flag.
Record t := mk {
  Name : string;
  ShortName : string;
  IsBoolean : bool;
  IsInverted : bool;
  Default : string;
  Value : string
}.
Definition setValue (f : t) (v : string) : t :=
  mk (Name f) (ShortName f) (IsBoolean f) (IsInverted f) (Default f) v.
End Flag.

Module Arg.
Record t := mk {
  Name : string;
  IsVariadic : bool;
  Default : string;
  Value : string
}.
Definition setValue (a : t) (v : string) : t :=
  mk (Name a) (IsVariadic a) (Default a) v.
End Arg.

(** Command is responsible for the metadata for the specific command *)
Module Command.
Record t := mk {
  Name : string;
  Flags : gomap ptr;
  shorthandFlags : gomap string;
  Args : gomap ptr;
  ArgNames : list string
}.
End Command.

Module CommandRegistry.
Record t := mk {
  BaseCommand : string;
  Version : string;
  Description : string;
  Commands : gomap ptr
}.
End CommandRegistry.

(** [type Registry map[string]*CommandRegistry] *)
Abbreviation Registry := (gomap ptr).

Inductive Error :=
| ErrorUnknownCommand (Name : string)
| ErrorUnknownFlag (Name : string)
| ErrorUnsupportedFlag (Name : string).

(** ** Heap, panics and the monad of the stateful code *)

(** One store per struct type; a location is an index into its store and
    allocation appends.  The maps of a [Command] live inside the struct
    at its location, so every alias of the [*Command] sees an update. *)
Record Heap := mkHeap {
  flags : list Flag.t;
  args : list Arg.t;
  commands : list Command.t;
  registries : list CommandRegistry.t
}.

Definition emptyHeap : Heap := mkHeap [] [] [] [].

Inductive panic :=
| IndexOutOfRange
| NilDereference
| NilMapAssignment.

(** A run returns a value and the heap it leaves, panics, or is cut off
    by the fuel of [parseLoop]. *)
Inductive res (A : Type) : Type :=
| Ret (a : A) (h : Heap)
| Panic (p : panic)
| OutOfFuel.
Arguments Ret {A} a h.
Arguments Panic {A} p.
Arguments OutOfFuel {A}.

Definition M (A : Type) : Type := Heap -> res A.

#[export] Instance M_ret : MRet M := λ A a h, Ret a h.
#[export] Instance M_bind : MBind M := λ A B k m h,
  match m h with
  | Ret a h' => k a h'
  | Panic p => Panic p
  | OutOfFuel => OutOfFuel
  end.

Definition raise {A} (p : panic) : M A := λ _, Panic p.

(** Dereferencing: nil panics.  (Go has no dangling pointers; a location
    outside the store is treated like nil.) *)
Definition deref {A} (store : Heap -> list A) (p : ptr) : M A := λ h,
  match p with
  | None => Panic NilDereference
  | Some l => match store h !! l with
              | Some a => Ret a h
              | None => Panic NilDereference
              end
  end.

Definition derefFlag : ptr -> M Flag.t := deref flags.
Definition derefArg : ptr -> M Arg.t := deref args.
Definition derefCommand : ptr -> M Command.t := deref commands.
Definition derefRegistry : ptr -> M CommandRegistry.t := deref registries.

(** [&Flag{...}], [&Arg{...}], [&Command{...}], [&CommandRegistry{...}] *)
Definition newFlag (f : Flag.t) : M ptr := λ h,
  Ret (Some (length (flags h)))
      (mkHeap (flags h ++ [f]) (args h) (commands h) (registries h)).
Definition newArg (a : Arg.t) : M ptr := λ h,
  Ret (Some (length (args h)))
      (mkHeap (flags h) (args h ++ [a]) (commands h) (registries h)).
Definition newCommand (c : Command.t) : M ptr := λ h,
  Ret (Some (length (commands h)))
      (mkHeap (flags h) (args h) (commands h ++ [c]) (registries h)).
Definition newRegistry (r : CommandRegistry.t) : M ptr := λ h,
  Ret (Some (length (registries h)))
      (mkHeap (flags h) (args h) (commands h) (registries h ++ [r])).

(** Writing through a pointer. *)
Definition storeFlag (p : ptr) (f : Flag.t) : M unit := λ h,
  match p with
  | None => Panic NilDereference
  | Some l => Ret tt (mkHeap (<[l:=f]> (flags h)) (args h) (commands h) (registries h))
  end.
Definition storeArg (p : ptr) (a : Arg.t) : M unit := λ h,
  match p with
  | None => Panic NilDereference
  | Some l => Ret tt (mkHeap (flags h) (<[l:=a]> (args h)) (commands h) (registries h))
  end.
Definition storeCommand (p : ptr) (c : Command.t) : M unit := λ h,
  match p with
  | None => Panic NilDereference
  | Some l => Ret tt (mkHeap (flags h) (args h) (<[l:=c]> (commands h)) (registries h))
  end.
Definition storeRegistry (p : ptr) (r : CommandRegistry.t) : M unit := λ h,
  match p with
  | None => Panic NilDereference
  | Some l => Ret tt (mkHeap (flags h) (args h) (commands h) (<[l:=r]> (registries h)))
  end.

(** [flag.Value = v] and [arg.Value = v] *)
Definition setFlagValue (p : ptr) (v : string) : M unit :=
  f ← derefFlag p; storeFlag p (Flag.setValue f v).
Definition setArgValue (p : ptr) (v : string) : M unit :=
  a ← derefArg p; storeArg p (Arg.setValue a v).

(** [m[k] = v] *)
Definition mapset {V} (m : gomap V) (k : string) (v : V) : M (gomap V) :=
  match m with
  | None => raise NilMapAssignment
  | Some g => mret (Some (<[k:=v]> g))
  end.

(** ** Registration *)

Definition NewRegistry : Registry := Some ∅.

(** Register will create a new Registry for a base command.  The map [r]
    is threaded: the updated map is returned next to the results. *)
Definition Register (r : Registry) (name version desc : string)
  : M (Registry * (ptr * bool)) :=
  let commandName := removeWhitespaces name in
  match maplookup r commandName with
  | Some _commandConfig => mret (r, (_commandConfig, true))
  | None =>
      commandConfig ← newRegistry
        (CommandRegistry.mk commandName version desc (Some ∅));
      r' ← mapset r commandName commandConfig;
      mret (r', (commandConfig, false))
  end.

(** [AddCommand], called through a pointer to the registry entry: the
    receiver is a copy of the struct that shares its [Commands] map. *)
Definition AddCommand (cr : ptr) (cmd : ptr) : M Command.t :=
  r ← derefRegistry cr;
  c ← derefCommand cmd;
  m ← mapset (CommandRegistry.Commands r) (Command.Name c) cmd;
  storeRegistry cr
    (CommandRegistry.mk (CommandRegistry.BaseCommand r) (CommandRegistry.Version r)
       (CommandRegistry.Description r) m);;
  derefCommand (mapget None m (Command.Name c)).

(** The sanitising prologue of [AddArg]: the name under which the
    argument is stored, whether it is variadic, and its default. *)
Definition sanitiseArg (a : Arg.t) : string * bool * string :=
  let cleanName := removeWhitespaces (Arg.Name a) in
  let cleanDefault := removeWhitespaces (Arg.Default a) in
  let '(ok, argName) := isVariadicArg cleanName in
  if ok then (argName, true, cleanDefault) else (cleanName, false, cleanDefault).

Definition AddArg (cmd : ptr) (arg : ptr) : M (ptr * bool) :=
  a ← derefArg arg;
  let '(cleanName, variadic, cleanDefault) := sanitiseArg a in
  c ← derefCommand cmd;
  match maplookup (Command.Args c) cleanName with
  | Some _arg => mret (_arg, true)
  | None =>
      newArg ← newArg (Arg.mk cleanName variadic cleanDefault "");
      Args' ← mapset (Command.Args c) cleanName newArg;
      storeCommand cmd
        (Command.mk (Command.Name c) (Command.Flags c) (Command.shorthandFlags c)
           Args' (Command.ArgNames c ++ [cleanName]));;
      mret (arg, false)
  end.

(** The sanitising prologue of [AddFlag]: the name under which the flag
    is stored, its shorthand, whether it is inverted, and its default. *)
Definition sanitiseFlag (f : Flag.t) : string * string * bool * string :=
  let cleanName := removeWhitespaces (Flag.Name f) in
  let cleanShortName := removeWhitespaces (Flag.ShortName f) in
  let cleanDefaultValue := removeWhitespaces (Flag.Default f) in
  let cleanShortName :=
    if negb (String.eqb cleanShortName "") then slice_to cleanShortName 1
    else cleanShortName in
  if Flag.IsBoolean f then
    if HasPrefix (Flag.Name f) "no-"
    then (TrimLeft (Flag.Name f) "no-", "", true, "true")
    else (cleanName, cleanShortName, false, "false")
  else (cleanName, cleanShortName, false, cleanDefaultValue).

Definition AddFlag (cmd : ptr) (flg : ptr) : M (ptr * bool) :=
  f ← derefFlag flg;
  let '(cleanName, cleanShortName, isInverted, cleanDefaultValue) := sanitiseFlag f in
  c ← derefCommand cmd;
  match maplookup (Command.Flags c) cleanName with
  | Some _flag => mret (_flag, true)
  | None =>
      flag ← newFlag
        (Flag.mk cleanName cleanShortName (Flag.IsBoolean f) isInverted
           cleanDefaultValue "");
      Flags' ← mapset (Command.Flags c) cleanName flag;
      shorthandFlags' ←
        (if (0 <? len cleanShortName)%nat
         then mapset (Command.shorthandFlags c) cleanShortName cleanName
         else mret (Command.shorthandFlags c));
      storeCommand cmd
        (Command.mk (Command.Name c) Flags' shorthandFlags'
           (Command.Args c) (Command.ArgNames c));;
      mret (flag, false)
  end.

(** ** Parsing *)

Definition next (slice : list string) : string * list string :=
  match slice with
  | [] => ("", [])
  | val :: rest => (val, if (1 <? length slice)%nat then rest else [])
  end.

(** The pre-scan of [Parse]: the first argument that is flag-shaped and
    unsupported. *)
Fixpoint prescan (args : list string) : option Error :=
  match args with
  | [] => None
  | val :: args' =>
      if isFlag val && isUnsupportedFlag val
      then Some (ErrorUnsupportedFlag val)
      else prescan args'
  end.

(** The flag branch up to the point where [flag] is determined: an
    early [return nil, ErrorUnknownFlag{value}] or the pointer held by
    the local [flag], which the short-flag path leaves nil. *)
Definition resolveFlag (commands : ptr) (value : string) : M (Error + ptr) :=
  let name := TrimLeft value "-" in
  if isShortFlag value then
    c ← derefCommand commands;
    match maplookup (Command.shorthandFlags c) name with
    | None => mret (inl (ErrorUnknownFlag value))
    | Some _ => mret (inr None)
    end
  else
    let '(ok, flagName) := isInvertedFlag value in
    if ok then
      c ← derefCommand commands;
      match maplookup (Command.Flags c) flagName with
      | None => mret (inl (ErrorUnknownFlag value))
      | Some _ => mret (inr (mapget None (Command.Flags c) flagName))
      end
    else
      c ← derefCommand commands;
      match maplookup (Command.Flags c) flagName with
      | None => mret (inl (ErrorUnknownFlag value))
      | Some _flag =>
          f ← derefFlag _flag;
          if Flag.IsInverted f then mret (inl (ErrorUnknownFlag value))
          else mret (inr (mapget None (Command.Flags c) name))
      end.

(** What one turn of the [for] loop of [Parse] does after its token:
    it returns from [Parse] with an error, or falls through to the next
    turn with its local [valuesToParse]. *)
Inductive turn :=
| Return (e : Error)
| Next (valuesToParse : list string).

Definition parseFlag (commands : ptr) (value : string)
    (valuesToParse : list string) : M turn :=
  r ← resolveFlag commands value;
  match r with
  | inl e => mret (Return e)
  | inr flag =>
      f ← derefFlag flag;
      if Flag.IsBoolean f then
        (if Flag.IsInverted f then setFlagValue flag "false"
         else setFlagValue flag "true");;
        mret (Next valuesToParse)
      else
        let '(nextValue, nextValuesToProcess) := next valuesToParse in
        if negb (len nextValue =? 0)%nat && negb (isFlag nextValue) then
          setFlagValue flag nextValue;;
          mret (Next nextValuesToProcess)
        else mret (Next valuesToParse)
  end.

(** [for index, argName := range commands.ArgNames], from [index] on. *)
Fixpoint assignArg (c : Command.t) (value : string) (index : nat)
    (names : list string) : M unit :=
  match names with
  | [] => mret tt
  | argName :: names' =>
      (* get argument object stored in the `commandConfig` *)
      let arg := mapget None (Command.Args c) argName in
      a ← derefArg arg;
      (* assign value if value of the argument is empty *)
      if (len (Arg.Value a) =? 0)%nat then setArgValue arg value
      else
        (* if last argument is a variadic argument, append values *)
        (if (index =? length (Command.ArgNames c) - 1)%nat && Arg.IsVariadic a
         then setArgValue arg (Arg.Value a ++ "," ++ value)
         else mret tt);;
        assignArg c value (S index) names'
  end.

Definition parseToken (commands : ptr) (value : string)
    (valuesToParse : list string) : M turn :=
  if isFlag value then parseFlag commands value valuesToParse
  else
    (* process as argument *)
    c ← derefCommand commands;
    assignArg c value 0 (Command.ArgNames c);;
    mret (Next valuesToParse).

(** The [for { ... }] loop.  Every turn reads its token from
    [formattedArguments]; the [valuesToParse] a turn ends with is local
    to that turn and the source never assigns it back. *)
Fixpoint parseLoop (fuel : nat) (commands : ptr)
    (formattedArguments : list string) : M (ptr * option Error) :=
  match fuel with
  | 0 => λ _, OutOfFuel
  | S fuel' =>
      let '(value, valuesToParse) := next formattedArguments in
      if (len value =? 0)%nat then mret (commands, None)
      else
        t ← parseToken commands value valuesToParse;
        match t with
        | Return e => mret (None, Some e)
        | Next _ => parseLoop fuel' commands formattedArguments
        end
  end.

(** [Parse], the method of a pointer to a [CommandRegistry]: it returns
    a pointer to a [Command] and an error. *)
Definition Parse (fuel : nat) (cmd : ptr) (args : list string)
  : M (ptr * option Error) :=
  (* Root command should sit at position 0. *)
  match args !! 0%nat with
  | None => raise IndexOutOfRange
  | Some commandName =>
      let formattedArguments := formatCommandValues args in
      (* Return ErrorUnsupportedFlag if the flag is unsupported. *)
      match prescan args with
      | Some e => mret (None, Some e)
      | None =>
          cr ← derefRegistry cmd;
          let commands := mapget None (CommandRegistry.Commands cr) commandName in
          parseLoop fuel commands formattedArguments
      end
  end.

(** ** The registry-level entry point of the second source file

    [Parse], the method of [Registry], ends, in the source, right after the registration check; what
    follows the check is a parameter here. *)
Section RegistryParse.
Variable rest : Registry -> list string -> M (ptr * option Error).

Definition Registry_Parse (r : Registry) (args : list string)
  : M (ptr * option Error) :=
  let commandName := "" in
  match prescan args with
  | Some e => mret (None, Some e)
  | None =>
      (* if command is not registered, return `ErrorUnknownCommand` error *)
      match maplookup r commandName with
      | None => mret (None, Some (ErrorUnknownCommand commandName))
      | Some _ => rest r args
      end
  end.
End RegistryParse.

(** ** Well-formed commands and observations of the heap *)

(** The declared argument [argName] of [c] is held by a location of the
    heap. *)
Definition argAllocated (h : Heap) (c : Command.t) (argName : string) : bool :=
  match mapget None (Command.Args c) argName with
  | Some la => (la <? length (args h))%nat
  | None => false
  end.

Definition argsAllocated (h : Heap) (c : Command.t) : bool :=
  forallb (argAllocated h c) (Command.ArgNames c).

(** The names under which [AddFlag] and [AddArg] store a declaration. *)
Definition flagKey (f : Flag.t) : string := (sanitiseFlag f).1.1.1.
Definition argKey (a : Arg.t) : string := (sanitiseArg a).1.1.

(** The flag and the argument a command holds under a name. *)
Definition flagOf (h : Heap) (cmd : ptr) (name : string) : option Flag.t :=
  l ← cmd; c ← commands h !! l;
  lf ← mapget None (Command.Flags c) name; flags h !! lf.

Definition argOf (h : Heap) (cmd : ptr) (name : string) : option Arg.t :=
  l ← cmd; c ← commands h !! l;
  la ← mapget None (Command.Args c) name; args h !! la.

(** The heap after the first [n] turns of the loop of [Parse], each of
    which reads the first token of [formattedArguments]. *)
Fixpoint turns (n : nat) (commands : ptr) (formattedArguments : list string)
  : M unit :=
  match n with
  | 0 => mret tt
  | S n' =>
      let '(value, valuesToParse) := next formattedArguments in
      parseToken commands value valuesToParse;;
      turns n' commands formattedArguments
  end.

(** The heap a computation leaves when it is run from the empty heap. *)
Definition heapOf {A} (m : M A) : Heap :=
  match m emptyHeap with
  | Ret _ h => h
  | _ => emptyHeap
  end.

(** ** The scenarios of the specification, built by the registration API *)

(** A command as a caller declares it, with its maps made. *)
Definition declare (name : string) : Command.t :=
  Command.mk name (Some ∅) (Some ∅) (Some ∅) [].

(** Base command [crn] with the command [generate], its flag
    [-g/--generate] and its argument [output]: the registry entry is at
    location 0 and so is the command. *)
Definition generateSetup : M (ptr * ptr) :=
  '(_, (cr, _)) ← Register NewRegistry "crn" "1.2" "CRN Generator Command";
  cmd ← newCommand (declare "generate");
  flg ← newFlag (Flag.mk "generate" "g" false false "" "");
  AddFlag cmd flg;;
  arg ← newArg (Arg.mk "output" false "" "");
  AddArg cmd arg;;
  AddCommand cr cmd;;
  mret (cr, cmd).

(** A command [serve] with the boolean flag declared as [no-verbose]. *)
Definition serveSetup : M (ptr * ptr) :=
  '(_, (cr, _)) ← Register NewRegistry "app" "1.0" "";
  cmd ← newCommand (declare "serve");
  flg ← newFlag (Flag.mk "no-verbose" "" true false "" "");
  AddFlag cmd flg;;
  AddCommand cr cmd;;
  mret (cr, cmd).

(** A command [greet] with the arguments [name] and [tags...]. *)
Definition greetSetup : M (ptr * ptr) :=
  '(_, (cr, _)) ← Register NewRegistry "app" "1.0" "";
  cmd ← newCommand (declare "greet");
  arg1 ← newArg (Arg.mk "name" false "" "");
  AddArg cmd arg1;;
  arg2 ← newArg (Arg.mk "tags..." false "" "");
  AddArg cmd arg2;;
  AddCommand cr cmd;;
  mret (cr, cmd).

(** A registry in which only the base command [crn] is registered. *)
Definition crnRegistry : M Registry :=
  '(r, _) ← Register NewRegistry "crn" "1.2" "CRN Generator Command";
  mret r.

(** A command and the declarations of a flag and of an argument, before
    any registration: all three at location 0 of their stores. *)
Definition declareSetup : M unit :=
  newCommand (declare "generate");;
  newFlag (Flag.mk "generate" "g" false false "" "");;
  newArg (Arg.mk "output" false "" "");;
  mret tt.

(** A command and two declarations of the name [no-cache], the first
    value-taking and the second boolean, before any registration. *)
Definition cacheSetup : M unit :=
  newCommand (declare "build");;
  newFlag (Flag.mk "no-cache" "" false false "" "");;
  newFlag (Flag.mk "no-cache" "" true false "" "");;
  mret tt.

(** What follows the registration check of the registry-level [Parse],
    in the instance used below: the nil result. *)
Definition noRest : Registry -> list string -> M (ptr * option Error) :=
  λ _ _, mret (None, None).

(** The heap of the [greet] scenario once both arguments hold a value:
    [name] holds [greet] and [tags] holds the given text. *)
Definition greetHeap (tags : string) : Heap :=
  let h := heapOf greetSetup in
  mkHeap (flags h)
    (<[3%nat := Arg.mk "tags" true "" tags]>
       (<[1%nat := Arg.mk "name" false "" "greet"]> (args h)))
    (commands h) (registries h).

(** [greet] followed by [n] times [,greet] *)
Fixpoint greetTags (n : nat) : string :=
  match n with
  | 0 => "greet"
  | S n' => greetTags n' ++ ",greet"
  end.

(** Two heaps that differ at most in the [Value] of arguments. *)
Definition sameButValues (h h' : Heap) : Prop :=
  flags h' = flags h /\ commands h' = commands h /\
  registries h' = registries h /\
  (fun a => (Arg.Name a, Arg.IsVariadic a, Arg.Default a)) <$> args h'
  = (fun a => (Arg.Name a, Arg.IsVariadic a, Arg.Default a)) <$> args h.

(** The declared argument [argName] of [c] is allocated and holds a
    non-empty value. *)
Definition argFilled (h : Heap) (c : Command.t) (argName : string) : bool :=
  match mapget None (Command.Args c) argName with
  | Some la => match args h !! la with
               | Some a => negb (len (Arg.Value a) =? 0)%nat
               | None => false
               end
  | None => false
  end.

(** The heap [h] with the [Value] of the argument at [la] replaced. *)
Definition withArgValue (h : Heap) (la : nat) (a : Arg.t) (v : string) : Heap :=
  mkHeap (flags h) (<[la:=Arg.setValue a v]> (args h)) (commands h) (registries h).

(** The declaration-order list names exactly the keys of the argument
    map, each once, and every one of them is allocated. *)
Definition argsWellFormed (h : Heap) (c : Command.t) : Prop :=
  NoDup (Command.ArgNames c) /\
  (forall n, n ∈ Command.ArgNames c <-> is_Some (maplookup (Command.Args c) n)) /\
  argsAllocated h c = true.

(** The [Error] methods of the three error types. *)
Definition Error_Error (e : Error) : string :=
  match e with
  | ErrorUnknownCommand Name =>
      "unknown command " ++ Name ++ " found in the arguments"
  | ErrorUnknownFlag Name =>
      "unknown flag " ++ Name ++ " found in the arguments"
  | ErrorUnsupportedFlag Name =>
      "unsupported flag " ++ Name ++ " found in the arguments"
  end.

(** A command and two declarations of the name [generate], the first
    value-taking and the second boolean, before any registration. *)
Definition kindSetup : M unit :=
  newCommand (declare "generate");;
  newFlag (Flag.mk "generate" "g" false false "" "");;
  newFlag (Flag.mk "generate" "" true false "" "");;
  mret tt.

(** ** Running the monad: equations used throughout *)

Lemma bind_Ret {A B} (m : M A) (k : A -> M B) h a h' :
  m h = Ret a h' -> (m ≫= k) h = k a h'.
Proof. intros E. unfold mbind, M_bind. now rewrite E. Qed.

Lemma bind_Panic {A B} (m : M A) (k : A -> M B) h p :
  m h = Panic p -> (m ≫= k) h = Panic p.
Proof. intros E. unfold mbind, M_bind. now rewrite E. Qed.

Lemma bind_inv_Ret {A B} (m : M A) (k : A -> M B) h b h2 :
  (m ≫= k) h = Ret b h2 -> exists a h1, m h = Ret a h1 /\ k a h1 = Ret b h2.
Proof.
  unfold mbind, M_bind. destruct (m h) as [a h1| |]; try discriminate.
  intros E. now exists a, h1.
Qed.

Lemma deref_Some {A} (store : Heap -> list A) l h a :
  store h !! l = Some a -> deref store (Some l) h = Ret a h.
Proof. intros E. unfold deref. now rewrite E. Qed.

Lemma deref_inv {A} (store : Heap -> list A) p h a h' :
  deref store p h = Ret a h' -> h' = h /\ exists l, p = Some l /\ store h !! l = Some a.
Proof.
  unfold deref. destruct p as [l|]; try discriminate.
  destruct (store h !! l) as [x|] eqn:E; try discriminate.
  intros [= -> ->]. split; [reflexivity | now exists l].
Qed.

(** ** Facts about the classifier *)

Lemma isFlag_length value : isFlag value = true -> len value = 2.
Proof.
  unfold isFlag. intros H.
  apply andb_prop in H as [H _]. apply andb_prop in H as [_ H].
  now apply Nat.eqb_eq in H.
Qed.

Lemma isFlag_isUnsupportedFlag value :
  isFlag value = true -> isUnsupportedFlag value = true.
Proof.
  unfold isFlag, isUnsupportedFlag.
  destruct (2 <=? len value)%nat; simpl; try discriminate.
  destruct (len value =? 2)%nat; simpl; try discriminate.
  destruct (HasPrefix value "-"); simpl; [discriminate | reflexivity].
Qed.

Lemma isFlag_long value : len value <> 2 -> isFlag value = false.
Proof.
  intros H. destruct (isFlag value) eqn:E; [|reflexivity].
  now apply isFlag_length in E.
Qed.

Lemma prescan_Some args e :
  prescan args = Some e -> exists val, e = ErrorUnsupportedFlag val.
Proof.
  induction args as [|val args IH]; simpl; try discriminate.
  destruct (isFlag val && isUnsupportedFlag val).
  - intros [= <-]. now exists val.
  - exact IH.
Qed.

Lemma prescan_None args :
  prescan args = None -> Forall (fun val => isFlag val = false) args.
Proof.
  induction args as [|val args IH]; simpl; intros H; constructor.
  - destruct (isFlag val) eqn:E; [|reflexivity].
    rewrite (isFlag_isUnsupportedFlag _ E) in H. discriminate.
  - apply IH. now destruct (isFlag val && isUnsupportedFlag val).
Qed.

Lemma prescan_noflags args :
  Forall (fun val => isFlag val = false) args -> prescan args = None.
Proof.
  induction 1 as [|val args E _ IH]; simpl; [reflexivity|].
  now rewrite E.
Qed.

Lemma formatLoop_noflags values :
  Forall (fun val => isFlag val = false) values ->
  forall formatted, formatLoop formatted values = (formatted ++ values)%list.
Proof.
  induction 1 as [|value values E _ IH]; intros formatted; simpl.
  - now rewrite app_nil_r.
  - rewrite E, IH, <- app_assoc. reflexivity.
Qed.

Lemma formatCommandValues_noflags values :
  Forall (fun val => isFlag val = false) values ->
  formatCommandValues values = values.
Proof. intros H. unfold formatCommandValues. now rewrite formatLoop_noflags. Qed.

(** ** The loop of [Parse] on a token that is not flag-shaped *)

Lemma parseLoop_S fuel cmds value rest h :
  len value <> 0 ->
  parseLoop (S fuel) cmds (value :: rest) h =
  match parseToken cmds value (if (1 <? length (value :: rest))%nat then rest else []) h with
  | Ret (Return e) h' => Ret (None, Some e) h'
  | Ret (Next _) h' => parseLoop fuel cmds (value :: rest) h'
  | Panic p => Panic p
  | OutOfFuel => OutOfFuel
  end.
Proof.
  intros Hlen. cbn [parseLoop next].
  destruct (len value =? 0)%nat eqn:E; [now apply Nat.eqb_eq in E|].
  unfold mbind, M_bind.
  destruct (parseToken _ _ _ h) as [[e|vs] h'| |]; reflexivity.
Qed.

Lemma parseToken_positional cmds value vs h t h' :
  isFlag value = false ->
  parseToken cmds value vs h = Ret t h' -> t = Next vs.
Proof.
  intros E. unfold parseToken. rewrite E. intros H.
  apply bind_inv_Ret in H as (c & h1 & _ & H).
  apply bind_inv_Ret in H as (u & h2 & _ & H).
  now injection H as <- _.
Qed.

(** The loop never returns while its first token is a non-empty
    positional one: it panics or uses up any fuel. *)
Lemma parseLoop_positional_no_return cmds value rest :
  isFlag value = false -> len value <> 0 ->
  forall fuel h r h', parseLoop fuel cmds (value :: rest) h <> Ret r h'.
Proof.
  intros E Hlen fuel. induction fuel as [|fuel IH]; intros h r h'.
  - discriminate.
  - rewrite parseLoop_S by assumption.
    destruct (parseToken _ _ _ h) as [t h1| |] eqn:Ht; try discriminate.
    apply parseToken_positional in Ht as ->; [|assumption].
    apply IH.
Qed.

Lemma setArgValue_runs la v h :
  la < length (args h) ->
  exists h', setArgValue (Some la) v h = Ret tt h' /\
    flags h' = flags h /\ commands h' = commands h /\
    registries h' = registries h /\ length (args h') = length (args h).
Proof.
  intros Hla. destruct (lookup_lt_is_Some_2 _ _ Hla) as [a Ha].
  unfold setArgValue, derefArg.
  rewrite (bind_Ret _ _ _ _ _ (deref_Some args la h a Ha)).
  eexists. split; [reflexivity|]. cbn. now rewrite length_insert.
Qed.

Lemma argAllocated_length h h' c names :
  length (args h') = length (args h) ->
  forallb (argAllocated h' c) names = forallb (argAllocated h c) names.
Proof.
  intros E. induction names as [|n names IH]; [reflexivity|].
  cbn [forallb]. rewrite IH. unfold argAllocated. now rewrite E.
Qed.

Lemma argsAllocated_length h h' c :
  length (args h') = length (args h) -> argsAllocated h' c = argsAllocated h c.
Proof. apply argAllocated_length. Qed.

Lemma assignArg_runs c value names :
  forall index h,
    forallb (argAllocated h c) names = true ->
    exists h', assignArg c value index names h = Ret tt h' /\
      flags h' = flags h /\ commands h' = commands h /\
      registries h' = registries h /\ length (args h') = length (args h).
Proof.
  induction names as [|argName names IH]; intros index h Hok.
  - exists h. repeat split; reflexivity.
  - cbn [forallb] in Hok. apply andb_prop in Hok as [Hone Hrest].
    unfold argAllocated in Hone. cbn [assignArg].
    destruct (mapget None (Command.Args c) argName) as [la|]; [|discriminate].
    apply Nat.ltb_lt in Hone.
    destruct (lookup_lt_is_Some_2 _ _ Hone) as [a Ha].
    unfold derefArg at 1.
    rewrite (bind_Ret _ _ _ _ _ (deref_Some args la h a Ha)).
    destruct (len (Arg.Value a) =? 0)%nat.
    + apply setArgValue_runs, Hone.
    + assert (exists h1, ((if (index =? length (Command.ArgNames c) - 1)%nat
                              && Arg.IsVariadic a
                           then setArgValue (Some la) (Arg.Value a ++ "," ++ value)
                           else mret tt) : M unit) h = Ret tt h1 /\
                flags h1 = flags h /\ commands h1 = commands h /\
                registries h1 = registries h /\ length (args h1) = length (args h))
        as (h1 & E1 & Hf & Hc & Hr & Hl).
      { destruct ((index =? length (Command.ArgNames c) - 1)%nat && Arg.IsVariadic a).
        - apply setArgValue_runs, Hone.
        - exists h. repeat split; reflexivity. }
      rewrite (bind_Ret _ _ _ _ _ E1).
      destruct (IH (S index) h1) as (h2 & E2 & Hf2 & Hc2 & Hr2 & Hl2).
      { now rewrite (argAllocated_length h h1 c names Hl). }
      exists h2. split; [exact E2|]. repeat split; congruence.
Qed.

(** On a command whose declared arguments are all allocated, a
    positional token takes one turn and leaves such a heap again. *)
Lemma parseToken_positional_runs l c value vs h :
  isFlag value = false ->
  commands h !! l = Some c -> argsAllocated h c = true ->
  exists h', parseToken (Some l) value vs h = Ret (Next vs) h' /\
    commands h' !! l = Some c /\ argsAllocated h' c = true.
Proof.
  intros E Hc Hok. unfold parseToken. rewrite E. unfold derefCommand.
  rewrite (bind_Ret _ _ _ _ _ (deref_Some commands l h c Hc)).
  destruct (assignArg_runs c value (Command.ArgNames c) 0 h Hok)
    as (h' & E' & _ & Hc' & _ & Hl').
  rewrite (bind_Ret _ _ _ _ _ E').
  exists h'. split; [reflexivity|]. split; [congruence|].
  now rewrite (argsAllocated_length _ _ _ Hl').
Qed.

(** The loop does not terminate there: whatever the fuel, it is used up. *)
Lemma parseLoop_positional_diverges l c value rest :
  isFlag value = false -> len value <> 0 ->
  forall fuel h,
    commands h !! l = Some c -> argsAllocated h c = true ->
    parseLoop fuel (Some l) (value :: rest) h = OutOfFuel.
Proof.
  intros E Hlen fuel. induction fuel as [|fuel IH]; intros h Hc Hok.
  - reflexivity.
  - rewrite parseLoop_S by assumption.
    destruct (parseToken_positional_runs l c value
                (if (1 <? length (value :: rest))%nat then rest else []) h E Hc Hok)
      as (h' & -> & Hc' & Hok').
    now apply IH.
Qed.

Lemma Parse_unfold fuel cmd commandName rest h cr :
  prescan (commandName :: rest) = None ->
  registries h !! cmd = Some cr ->
  Parse fuel (Some cmd) (commandName :: rest) h =
  parseLoop fuel (mapget None (CommandRegistry.Commands cr) commandName)
    (commandName :: rest) h.
Proof.
  intros Hpre Hcr. unfold Parse. cbn [lookup list_lookup].
  rewrite Hpre, (formatCommandValues_noflags _ (prescan_None _ Hpre)).
  unfold derefRegistry.
  now rewrite (bind_Ret _ _ _ _ _ (deref_Some registries cmd h cr Hcr)).
Qed.

Lemma Parse_positional_diverges h cmd cr commandName rest l c :
  registries h !! cmd = Some cr ->
  mapget None (CommandRegistry.Commands cr) commandName = Some l ->
  commands h !! l = Some c -> argsAllocated h c = true ->
  len commandName <> 0 -> prescan (commandName :: rest) = None ->
  forall fuel, Parse fuel (Some cmd) (commandName :: rest) h = OutOfFuel.
Proof.
  intros Hcr Hsel Hc Hok Hlen Hpre fuel.
  rewrite (Parse_unfold _ _ _ _ _ _ Hpre Hcr), Hsel.
  apply (parseLoop_positional_diverges l c); try assumption.
  pose proof (prescan_None _ Hpre) as Hall. now inversion Hall.
Qed.

(** [Parse] returns only in two ways: with the error of the pre-scan, or
    at once, on an argument vector whose first entry is the empty
    string, with whatever the map holds under the empty name. *)
Lemma Parse_returns_only fuel cmd args h r h' :
  Parse fuel cmd args h = Ret r h' ->
  (exists val, r = (None, Some (ErrorUnsupportedFlag val))) \/
  (exists rest, args = "" :: rest /\ snd r = None).
Proof.
  unfold Parse. destruct args as [|commandName rest]; cbn [lookup list_lookup].
  - discriminate.
  - destruct (prescan (commandName :: rest)) as [e|] eqn:Hpre.
    + intros [= <- _]. left. apply prescan_Some in Hpre as [val ->]. now exists val.
    + rewrite (formatCommandValues_noflags _ (prescan_None _ Hpre)).
      intros H. apply bind_inv_Ret in H as (cr & h1 & _ & H). right.
      destruct (Nat.eq_dec (len commandName) 0) as [E|E].
      * destruct commandName; [|discriminate].
        exists rest. split; [reflexivity|].
        destruct fuel; [discriminate|]. cbn in H. now injection H as <- _.
      * exfalso. revert H. apply parseLoop_positional_no_return; [|assumption].
        pose proof (prescan_None _ Hpre) as Hall. now inversion Hall.
Qed.

Lemma Parse_unregistered_panics fuel h cmd cr commandName rest :
  registries h !! cmd = Some cr ->
  mapget None (CommandRegistry.Commands cr) commandName = None ->
  len commandName <> 0 -> prescan (commandName :: rest) = None ->
  Parse (S fuel) (Some cmd) (commandName :: rest) h = Panic NilDereference.
Proof.
  intros Hcr Hsel Hlen Hpre.
  rewrite (Parse_unfold _ _ _ _ _ _ Hpre Hcr), Hsel, parseLoop_S by assumption.
  pose proof (prescan_None _ Hpre) as Hall. inversion Hall as [|? ? E _]; subst.
  unfold parseToken. rewrite E. reflexivity.
Qed.

(** Once a turn leaves the heap as it found it, so do all later turns. *)
Lemma turns_fixed cmds value rest h t :
  parseToken cmds value (if (1 <? length (value :: rest))%nat then rest else []) h
  = Ret t h ->
  forall n, turns n cmds (value :: rest) h = Ret tt h.
Proof.
  intros E n. induction n as [|n IH]; [reflexivity|].
  cbn [turns next]. now rewrite (bind_Ret _ _ _ _ _ E).
Qed.

Lemma prescan_flag args value :
  In value args -> isFlag value = true ->
  exists val, prescan args = Some (ErrorUnsupportedFlag val).
Proof.
  induction args as [|a args IH]; intros Hin Hf; [destruct Hin|].
  cbn [prescan].
  destruct (isFlag a && isUnsupportedFlag a) eqn:E; [now exists a|].
  destruct Hin as [->|Hin]; [|now apply IH].
  now rewrite Hf, (isFlag_isUnsupportedFlag _ Hf) in E.
Qed.

Lemma turns_add a b cmds formattedArguments :
  forall h h1,
    turns a cmds formattedArguments h = Ret tt h1 ->
    turns (a + b) cmds formattedArguments h = turns b cmds formattedArguments h1.
Proof.
  induction a as [|a IH]; intros h h1 H.
  - now injection H as <-.
  - cbn [turns Nat.add] in *. destruct (next formattedArguments) as [value vs].
    apply bind_inv_Ret in H as (t & h2 & E & H).
    rewrite (bind_Ret _ _ _ _ _ E). now apply IH.
Qed.

(** The [greet] scenario, turn by turn. *)
Lemma greetTags_nonempty n : exists c s, greetTags n = String c s.
Proof.
  induction n as [|n (c & s & E)]; [now eexists _, _|].
  cbn. rewrite E. now eexists _, _.
Qed.

Lemma greet_turn c s vs :
  parseToken (Some 0) "greet" vs (greetHeap (String c s))
  = Ret (Next vs) (greetHeap (String c s ++ ",greet")).
Proof. vm_compute. reflexivity. Qed.

Lemma greet_turns n :
  forall k,
    turns n (Some 0) ["greet"; "alice"; "x"; "y"; "z"] (greetHeap (greetTags k))
    = Ret tt (greetHeap (greetTags (n + k))).
Proof.
  induction n as [|n IH]; intros k; [reflexivity|].
  cbn [turns next]. destruct (greetTags_nonempty k) as (c & s & E).
  rewrite E. erewrite bind_Ret; [|apply greet_turn].
  rewrite <- E. change (greetTags k ++ ",greet") with (greetTags (S k)).
  rewrite IH. now rewrite Nat.add_succ_r.
Qed.

Lemma greet_first_two :
  turns 2 (Some 0) ["greet"; "alice"; "x"; "y"; "z"] (heapOf greetSetup)
  = Ret tt (greetHeap (greetTags 0)).
Proof. vm_compute. reflexivity. Qed.

(** ** Registration twice *)

Lemma flagKey_ext f1 f2 :
  Flag.Name f2 = Flag.Name f1 -> Flag.IsBoolean f2 = Flag.IsBoolean f1 ->
  flagKey f2 = flagKey f1.
Proof.
  intros Hn Hb. unfold flagKey, sanitiseFlag. rewrite Hn, Hb.
  destruct (Flag.IsBoolean f1); [|reflexivity].
  destruct (HasPrefix (Flag.Name f1) "no-"); reflexivity.
Qed.

Lemma argKey_ext a1 a2 : Arg.Name a2 = Arg.Name a1 -> argKey a2 = argKey a1.
Proof.
  intros Hn. unfold argKey, sanitiseArg. rewrite Hn.
  destruct (isVariadicArg (removeWhitespaces (Arg.Name a1))) as [[|] argName];
    reflexivity.
Qed.

Lemma AddFlag_existing lc lf h f c stored :
  flags h !! lf = Some f -> commands h !! lc = Some c ->
  maplookup (Command.Flags c) (flagKey f) = Some stored ->
  AddFlag (Some lc) (Some lf) h = Ret (stored, true) h.
Proof.
  intros Hf Hc Hk. unfold AddFlag, derefFlag, derefCommand.
  rewrite (bind_Ret _ _ _ _ _ (deref_Some flags lf h f Hf)).
  unfold flagKey in Hk.
  destruct (sanitiseFlag f) as [[[cleanName cleanShortName] isInverted] dflt].
  cbn in Hk.
  rewrite (bind_Ret _ _ _ _ _ (deref_Some commands lc h c Hc)).
  now rewrite Hk.
Qed.

Lemma AddArg_existing lc la h a c stored :
  args h !! la = Some a -> commands h !! lc = Some c ->
  maplookup (Command.Args c) (argKey a) = Some stored ->
  AddArg (Some lc) (Some la) h = Ret (stored, true) h.
Proof.
  intros Ha Hc Hk. unfold AddArg, derefArg, derefCommand.
  rewrite (bind_Ret _ _ _ _ _ (deref_Some args la h a Ha)).
  unfold argKey in Hk.
  destruct (sanitiseArg a) as [[cleanName variadic] cleanDefault].
  cbn in Hk.
  rewrite (bind_Ret _ _ _ _ _ (deref_Some commands lc h c Hc)).
  now rewrite Hk.
Qed.

Lemma mapset_inv {V} (m : gomap V) k v h m' h' :
  mapset m k v h = Ret m' h' -> h' = h /\ exists g, m = Some g /\ m' = Some (<[k:=v]> g).
Proof.
  destruct m as [g|]; cbn; [|discriminate].
  intros [= <- <-]. split; [reflexivity|]. now exists g.
Qed.

(** After [AddFlag] has returned, the command holds a flag under the
    key of the declaration, and the flags allocated before are as they
    were. *)
Lemma AddFlag_inv cmd flg h r h1 :
  AddFlag cmd flg h = Ret r h1 ->
  exists lf f lc c1,
    flg = Some lf /\ flags h !! lf = Some f /\
    cmd = Some lc /\ commands h1 !! lc = Some c1 /\
    maplookup (Command.Flags c1) (flagKey f) = Some r.1 /\
    (forall l x, flags h !! l = Some x -> flags h1 !! l = Some x).
Proof.
  unfold AddFlag, derefFlag, derefCommand. intros H.
  apply bind_inv_Ret in H as (f & h0 & Hd & H).
  apply deref_inv in Hd as (-> & lf & -> & Hf).
  destruct (sanitiseFlag f) as [[[cleanName cleanShortName] isInverted] dflt] eqn:Es.
  apply bind_inv_Ret in H as (c & h0 & Hd & H).
  apply deref_inv in Hd as (-> & lc & -> & Hc).
  destruct (maplookup (Command.Flags c) cleanName) as [_flag|] eqn:Hk.
  - injection H as <- <-. exists lf, f, lc, c.
    unfold flagKey. rewrite Es. repeat split; auto.
  - apply bind_inv_Ret in H as (flag & h2 & Hn & H).
    injection Hn as <- <-.
    apply bind_inv_Ret in H as (Flags' & h3 & Hm & H).
    apply mapset_inv in Hm as (-> & g & Hg & ->).
    apply bind_inv_Ret in H as (sh & h3 & Hs & H).
    assert (h3 = mkHeap (flags h ++ [Flag.mk cleanName cleanShortName
              (Flag.IsBoolean f) isInverted dflt ""]) (args h) (commands h)
              (registries h)) as ->.
    { destruct (0 <? len cleanShortName)%nat.
      - now apply mapset_inv in Hs as [-> _].
      - now injection Hs as _ <-. }
    apply bind_inv_Ret in H as ([] & h4 & Hst & H).
    injection H as <- <-. cbn in Hst. injection Hst as <-.
    eexists lf, f, lc, _. unfold flagKey. rewrite Es. cbn.
    split; [reflexivity|]. split; [assumption|]. split; [reflexivity|].
    split; [apply list_lookup_insert_eq; eapply lookup_lt_Some; eassumption|].
    split; [cbn; apply lookup_insert_eq|].
    intros l x Hl. now apply lookup_app_l_Some.
Qed.

Lemma AddArg_inv cmd arg h r h1 :
  AddArg cmd arg h = Ret r h1 ->
  exists la a lc c1 stored,
    arg = Some la /\ args h !! la = Some a /\
    cmd = Some lc /\ commands h1 !! lc = Some c1 /\
    maplookup (Command.Args c1) (argKey a) = Some stored /\
    (forall l x, args h !! l = Some x -> args h1 !! l = Some x).
Proof.
  unfold AddArg, derefArg, derefCommand. intros H.
  apply bind_inv_Ret in H as (a & h0 & Hd & H).
  apply deref_inv in Hd as (-> & la & -> & Ha).
  destruct (sanitiseArg a) as [[cleanName variadic] cleanDefault] eqn:Es.
  apply bind_inv_Ret in H as (c & h0 & Hd & H).
  apply deref_inv in Hd as (-> & lc & -> & Hc).
  destruct (maplookup (Command.Args c) cleanName) as [_arg|] eqn:Hk.
  - injection H as <- <-. exists la, a, lc, c, _arg.
    unfold argKey. rewrite Es. repeat split; auto.
  - apply bind_inv_Ret in H as (newArg & h2 & Hn & H).
    injection Hn as <- <-.
    apply bind_inv_Ret in H as (Args' & h3 & Hm & H).
    apply mapset_inv in Hm as (-> & g & Hg & ->).
    apply bind_inv_Ret in H as ([] & h4 & Hst & H).
    injection H as <- <-. cbn in Hst. injection Hst as <-.
    eexists la, a, lc, _, _. unfold argKey. rewrite Es. cbn.
    split; [reflexivity|]. split; [assumption|]. split; [reflexivity|].
    split; [apply list_lookup_insert_eq; eapply lookup_lt_Some; eassumption|].
    split; [cbn; apply lookup_insert_eq|].
    intros l x Hl. now apply lookup_app_l_Some.
Qed.

(** ** The claims *)

(** C1 (the generate scenario).  On the vector [generate -g myval
    result.txt] the call does not return: [-g] is not flag-shaped, and
    every turn of the loop reads [generate] again.  The first turn
    assigns [generate] to the argument [output]; the flag's value stays
    empty. *)
Theorem C1_generate_scenario_diverges :
  generateSetup emptyHeap = Ret (Some 0, Some 0) (heapOf generateSetup) /\
  isFlag "-g" = false /\
  (forall fuel,
      Parse fuel (Some 0) ["generate"; "-g"; "myval"; "result.txt"]
        (heapOf generateSetup) = OutOfFuel) /\
  (forall n, exists h,
      turns (S n) (Some 0) ["generate"; "-g"; "myval"; "result.txt"]
        (heapOf generateSetup) = Ret tt h /\
      Arg.Value <$> argOf h (Some 0) "output" = Some "generate" /\
      Flag.Value <$> flagOf h (Some 0) "generate" = Some "").
Proof.
  split; [vm_compute; reflexivity|]. split; [reflexivity|]. split.
  - eapply (Parse_positional_diverges (heapOf generateSetup) 0 _ "generate" _ 0);
      try (vm_compute; reflexivity).
    discriminate.
  - intros n.
    exists (heapOf (generateSetup;;
                    turns 1 (Some 0) ["generate"; "-g"; "myval"; "result.txt"])).
    split; [|split; vm_compute; reflexivity].
    cbn [turns next].
    erewrite bind_Ret; [|vm_compute; reflexivity].
    eapply turns_fixed. vm_compute. reflexivity.
Qed.

(** C2 (termination).  The loop of [Parse] does not terminate "once the
    token stream is exhausted": the stream is never advanced.  [Parse]
    returns only through the pre-scan error or when the first entry of
    the vector is empty; when the first entry is non-empty and selects a
    registered command whose arguments are allocated, and no entry is
    flag-shaped, every amount of fuel is used up. *)
Theorem C2_Parse_does_not_terminate :
  (forall fuel cmd args h r h',
      Parse fuel cmd args h = Ret r h' ->
      (exists val, r = (None, Some (ErrorUnsupportedFlag val))) \/
      (exists rest, args = "" :: rest /\ snd r = None)) /\
  (forall h cmd cr commandName rest l c,
      registries h !! cmd = Some cr ->
      mapget None (CommandRegistry.Commands cr) commandName = Some l ->
      commands h !! l = Some c -> argsAllocated h c = true ->
      len commandName <> 0 -> prescan (commandName :: rest) = None ->
      forall fuel, Parse fuel (Some cmd) (commandName :: rest) h = OutOfFuel).
Proof.
  split.
  - apply Parse_returns_only.
  - apply Parse_positional_diverges.
Qed.

(** [C2] on the [serve] scenario: a hundred turns are not enough. *)
Lemma C2_witness :
  prescan ["serve"; "now"] = None /\
  Parse 100 (Some 0) ["serve"; "now"] (heapOf serveSetup) = OutOfFuel.
Proof.
  split; [reflexivity|].
  eapply (proj2 C2_Parse_does_not_terminate (heapOf serveSetup) 0 _ "serve" ["now"] 0);
    try (vm_compute; reflexivity).
  discriminate.
Defined.

(** C3 (totality at the interface).  [Parse] fails in ways that are none
    of the three errors: the empty vector panics at [args[0]]; a
    non-empty selector that names no command panics on the nil command;
    and the empty selector, when it names no command, returns the nil
    command with no error. *)
Theorem C3_Parse_panics :
  (forall fuel cmd h, Parse fuel cmd [] h = Panic IndexOutOfRange) /\
  (forall fuel h cmd cr commandName rest,
      registries h !! cmd = Some cr ->
      mapget None (CommandRegistry.Commands cr) commandName = None ->
      len commandName <> 0 -> prescan (commandName :: rest) = None ->
      Parse (S fuel) (Some cmd) (commandName :: rest) h = Panic NilDereference) /\
  (forall fuel h cmd cr rest,
      registries h !! cmd = Some cr ->
      mapget None (CommandRegistry.Commands cr) "" = None ->
      prescan ("" :: rest) = None ->
      Parse (S fuel) (Some cmd) ("" :: rest) h = Ret (None, None) h).
Proof.
  split; [reflexivity|]. split.
  - intros fuel h cmd cr commandName rest. apply Parse_unregistered_panics.
  - intros fuel h cmd cr rest Hcr Hsel Hpre.
    rewrite (Parse_unfold _ _ _ _ _ _ Hpre Hcr), Hsel. reflexivity.
Qed.

(** [C3] on the [generate] scenario with a selector that names no command. *)
Lemma C3_witness :
  prescan ["nosuch"; "x"] = None /\
  Parse 1 (Some 0) ["nosuch"; "x"] (heapOf generateSetup) = Panic NilDereference.
Proof.
  split; [reflexivity|].
  eapply (proj1 (proj2 C3_Parse_panics) 0 (heapOf generateSetup) 0);
    try (vm_compute; reflexivity).
  discriminate.
Defined.

(** C4 (splitting at the equals sign).  [formatCommandValues] splits
    only flag-shaped values, which have two bytes: the token
    [--flag=value] is passed on as it is, and so is every value whose
    length is not 2. *)
Theorem C4_long_token_not_split :
  formatCommandValues ["--flag=value"] = ["--flag=value"] /\
  formatCommandValues ["--flag=value"] <> ["--flag"; "value"] /\
  (forall value, len value <> 2 -> formatCommandValues [value] = [value]).
Proof.
  split; [reflexivity|]. split; [discriminate|].
  intros value H. apply formatCommandValues_noflags.
  constructor; [now apply isFlag_long | constructor].
Qed.

(** [C4] on another long token. *)
Lemma C4_witness :
  len "--name=value" <> 2 /\
  formatCommandValues ["--name=value"] = ["--name=value"].
Proof.
  split; [discriminate|].
  apply (proj2 (proj2 C4_long_token_not_split) "--name=value"). discriminate.
Defined.

(** The claim as stated has [--g] unsupported; the code supports it. *)
Lemma C5_counterexample : isUnsupportedFlag "--g" <> true.
Proof. discriminate. Qed.

(** C5 (unsupported shapes), as amended: the three length rules hold as
    stated; [-ab], [---g] and [-good] are unsupported, [-g] and [--good]
    are supported, and so is [--g], which has three bytes and falls
    under the long-flag rule; the two-byte token [--] is unsupported. *)
Theorem C5_isUnsupportedFlag_shapes :
  (forall value, len value = 2 ->
     isUnsupportedFlag value = negb (HasPrefix value "-") || HasPrefix value "--") /\
  (forall value, 2 < len value ->
     isUnsupportedFlag value = negb (HasPrefix value "--") || HasPrefix value "---") /\
  (forall value, len value < 2 -> isUnsupportedFlag value = false) /\
  isUnsupportedFlag "-ab" = true /\
  isUnsupportedFlag "-g" = false /\
  isUnsupportedFlag "--good" = false /\
  isUnsupportedFlag "--g" = false /\
  isUnsupportedFlag "--" = true /\
  isUnsupportedFlag "---g" = true /\
  isUnsupportedFlag "-good" = true.
Proof.
  split; [|split; [|split]].
  - intros value H. unfold isUnsupportedFlag. now rewrite H.
  - intros value H. unfold isUnsupportedFlag.
    destruct (Nat.leb_spec 2 (len value)); [|lia].
    destruct (Nat.eqb_spec (len value) 2); [lia|reflexivity].
  - intros value H. unfold isUnsupportedFlag.
    destruct (Nat.leb_spec 2 (len value)); [lia|reflexivity].
  - repeat split.
Qed.

(** [C5] on a two-byte token. *)
Lemma C5_witness :
  len "ab" = 2 /\
  isUnsupportedFlag "ab" = negb (HasPrefix "ab" "-") || HasPrefix "ab" "--".
Proof.
  split; [reflexivity|].
  apply (proj1 C5_isUnsupportedFlag_shapes "ab"). reflexivity.
Defined.

(** C6 (the inverted flag).  Registration does what the claim says:
    the boolean declaration [no-verbose] is stored as [verbose],
    inverted, without shorthand and with default [true], and a plain
    boolean declaration gets default [false].  Parsing does not: the
    token [--no-verbose] is not flag-shaped, the call does not return,
    and no turn of its loop changes the heap, so the flag's value is
    never set. *)
Theorem C6_no_verbose_scenario :
  sanitiseFlag (Flag.mk "no-verbose" "" true false "" "") = ("verbose", "", true, "true") /\
  sanitiseFlag (Flag.mk "verbose" "v" true false "" "") = ("verbose", "v", false, "false") /\
  serveSetup emptyHeap = Ret (Some 0, Some 0) (heapOf serveSetup) /\
  flagOf (heapOf serveSetup) (Some 0) "verbose"
  = Some (Flag.mk "verbose" "" true true "true" "") /\
  isFlag "--no-verbose" = false /\
  (forall fuel,
      Parse fuel (Some 0) ["serve"; "--no-verbose"] (heapOf serveSetup) = OutOfFuel) /\
  (forall n,
      turns n (Some 0) ["serve"; "--no-verbose"] (heapOf serveSetup)
      = Ret tt (heapOf serveSetup)).
Proof.
  split; [reflexivity|]. split; [reflexivity|].
  split; [vm_compute; reflexivity|]. split; [vm_compute; reflexivity|].
  split; [reflexivity|]. split.
  - eapply (Parse_positional_diverges (heapOf serveSetup) 0 _ "serve" _ 0);
      try (vm_compute; reflexivity).
    discriminate.
  - eapply turns_fixed. vm_compute. reflexivity.
Qed.

(** C7 (variadic accumulation).  With the arguments [name] and [tags...]
    declared, the call on [greet alice x y z] does not return, and its
    turns assign the selector over and over: after [n + 2] turns [name]
    is [greet] and [tags] is [greet] followed by [n] times [,greet]; so
    after five turns, one per entry of the vector, [tags] is
    [greet,greet,greet,greet].  On the vector [alice x y z] alone the
    selector [alice] names no command and the call panics. *)
Theorem C7_greet_scenario :
  greetSetup emptyHeap = Ret (Some 0, Some 0) (heapOf greetSetup) /\
  argOf (heapOf greetSetup) (Some 0) "name" = Some (Arg.mk "name" false "" "") /\
  argOf (heapOf greetSetup) (Some 0) "tags" = Some (Arg.mk "tags" true "" "") /\
  (forall fuel,
      Parse fuel (Some 0) ["greet"; "alice"; "x"; "y"; "z"] (heapOf greetSetup)
      = OutOfFuel) /\
  (forall n, exists h,
      turns (n + 2) (Some 0) ["greet"; "alice"; "x"; "y"; "z"] (heapOf greetSetup)
      = Ret tt h /\
      Arg.Value <$> argOf h (Some 0) "name" = Some "greet" /\
      Arg.Value <$> argOf h (Some 0) "tags" = Some (greetTags n)) /\
  (exists h,
      turns 5 (Some 0) ["greet"; "alice"; "x"; "y"; "z"] (heapOf greetSetup)
      = Ret tt h /\
      Arg.Value <$> argOf h (Some 0) "name" = Some "greet" /\
      Arg.Value <$> argOf h (Some 0) "tags" = Some "greet,greet,greet,greet") /\
  (forall fuel,
      Parse (S fuel) (Some 0) ["alice"; "x"; "y"; "z"] (heapOf greetSetup)
      = Panic NilDereference).
Proof.
  split; [vm_compute; reflexivity|]. split; [vm_compute; reflexivity|].
  split; [vm_compute; reflexivity|]. split; [|split; [|split]].
  - eapply (Parse_positional_diverges (heapOf greetSetup) 0 _ "greet" _ 0);
      try (vm_compute; reflexivity).
    discriminate.
  - intros n. exists (greetHeap (greetTags n)).
    split; [|split; reflexivity].
    rewrite Nat.add_comm, (turns_add 2 n _ _ _ _ greet_first_two), greet_turns.
    now rewrite Nat.add_0_r.
  - exists (heapOf (greetSetup;; turns 5 (Some 0) ["greet"; "alice"; "x"; "y"; "z"])).
    repeat split; vm_compute; reflexivity.
  - intros fuel.
    eapply (Parse_unregistered_panics fuel (heapOf greetSetup) 0);
      try (vm_compute; reflexivity).
    discriminate.
Qed.

(** The claim as stated speaks of the same flag name only.  A name that
    begins with [no-] is stored under itself when the declaration is
    value-taking and without the prefix when it is boolean: registering
    [no-cache] first as the one and then as the other creates a second
    entry and reports that nothing existed. *)
Lemma C8_counterexample :
  (cacheSetup;; AddFlag (Some 0) (Some 0);; AddFlag (Some 0) (Some 1)) emptyHeap
  = Ret (Some 3, false)
      (heapOf (cacheSetup;; AddFlag (Some 0) (Some 0);; AddFlag (Some 0) (Some 1))) /\
  Flag.Name <$> flags (heapOf cacheSetup) !! 0%nat = Some "no-cache" /\
  Flag.Name <$> flags (heapOf cacheSetup) !! 1%nat = Some "no-cache" /\
  flagOf (heapOf (cacheSetup;; AddFlag (Some 0) (Some 0);; AddFlag (Some 0) (Some 1)))
    (Some 0) "no-cache" = Some (Flag.mk "no-cache" "" false false "" "") /\
  flagOf (heapOf (cacheSetup;; AddFlag (Some 0) (Some 0);; AddFlag (Some 0) (Some 1)))
    (Some 0) "cache" = Some (Flag.mk "cache" "" true true "true" "").
Proof. repeat split; vm_compute; reflexivity. Qed.

(** C8 (registering twice), as amended.  Once a flag declaration has been
    registered, registering a declaration that is stored under the same
    name returns the pointer the command holds under that name, which is
    the one the first call returned, together with [true], and leaves
    the heap, hence the maps and the list of argument names, as it is.
    Two declarations of the same name are stored under the same name
    unless the name begins with [no-] and one is boolean and the other
    is not.  The same holds for an argument declaration of the same
    name, where the pointer returned is the one the command holds. *)
Theorem C8_second_registration_returns_stored :
  (forall cmd flg1 flg2 h r1 h1 f1 f2,
      AddFlag cmd flg1 h = Ret r1 h1 ->
      derefFlag flg1 h = Ret f1 h -> derefFlag flg2 h1 = Ret f2 h1 ->
      flagKey f2 = flagKey f1 ->
      exists c,
        derefCommand cmd h1 = Ret c h1 /\
        maplookup (Command.Flags c) (flagKey f1) = Some r1.1 /\
        AddFlag cmd flg2 h1 = Ret (r1.1, true) h1) /\
  (forall f1 f2,
      Flag.Name f2 = Flag.Name f1 ->
      HasPrefix (Flag.Name f1) "no-" = false \/
      Flag.IsBoolean f2 = Flag.IsBoolean f1 ->
      flagKey f2 = flagKey f1) /\
  (forall cmd arg1 arg2 h r1 h1 a1 a2,
      AddArg cmd arg1 h = Ret r1 h1 ->
      derefArg arg1 h = Ret a1 h -> derefArg arg2 h1 = Ret a2 h1 ->
      Arg.Name a2 = Arg.Name a1 ->
      exists c stored,
        derefCommand cmd h1 = Ret c h1 /\
        maplookup (Command.Args c) (argKey a1) = Some stored /\
        AddArg cmd arg2 h1 = Ret (stored, true) h1).
Proof.
  split; [|split].
  - intros cmd flg1 flg2 h r1 h1 f1 f2 H1 Hf1 Hf2 Hk.
    apply AddFlag_inv in H1 as (lf & f & lc & c1 & -> & Hf & -> & Hc & Hs & _).
    apply deref_inv in Hf1 as (_ & ? & [= <-] & Hf1).
    assert (f = f1) as -> by congruence.
    apply deref_inv in Hf2 as (_ & lf2 & -> & Hf2).
    exists c1. split; [now apply deref_Some|]. split; [assumption|].
    apply (AddFlag_existing lc lf2 h1 f2 c1); try assumption.
    now rewrite Hk.
  - intros f1 f2 Hn [Hp|Hb]; [|now apply flagKey_ext].
    unfold flagKey, sanitiseFlag. rewrite Hn, Hp.
    now destruct (Flag.IsBoolean f1), (Flag.IsBoolean f2).
  - intros cmd arg1 arg2 h r1 h1 a1 a2 H1 Ha1 Ha2 Hn.
    apply AddArg_inv in H1 as (la & a & lc & c1 & stored & -> & Ha & -> & Hc & Hk & _).
    apply deref_inv in Ha1 as (_ & ? & [= <-] & Ha1).
    assert (a = a1) as -> by congruence.
    apply deref_inv in Ha2 as (_ & la2 & -> & Ha2).
    exists c1, stored. split; [now apply deref_Some|]. split; [assumption|].
    apply (AddArg_existing lc la2 h1 a2 c1); try assumption.
    now rewrite (argKey_ext a1 a2).
Qed.

(** [C8] on the name [generate], registered as a value-taking flag and
    then declared again as a boolean one. *)
Lemma C8_witness :
  AddFlag (Some 0) (Some 0) (heapOf kindSetup)
  = Ret (Some 2, false) (heapOf (kindSetup;; AddFlag (Some 0) (Some 0))) /\
  flagKey (Flag.mk "generate" "" true false "" "")
  = flagKey (Flag.mk "generate" "g" false false "" "") /\
  exists c,
    derefCommand (Some 0) (heapOf (kindSetup;; AddFlag (Some 0) (Some 0)))
    = Ret c (heapOf (kindSetup;; AddFlag (Some 0) (Some 0))) /\
    maplookup (Command.Flags c) "generate" = Some (Some 2) /\
    AddFlag (Some 0) (Some 1) (heapOf (kindSetup;; AddFlag (Some 0) (Some 0)))
    = Ret (Some 2, true) (heapOf (kindSetup;; AddFlag (Some 0) (Some 0))).
Proof.
  split; [vm_compute; reflexivity|]. split; [reflexivity|].
  apply (proj1 C8_second_registration_returns_stored (Some 0) (Some 0) (Some 1)
           (heapOf kindSetup) (Some 2, false)
           (heapOf (kindSetup;; AddFlag (Some 0) (Some 0)))
           (Flag.mk "generate" "g" false false "" "")
           (Flag.mk "generate" "" true false "" ""));
    try reflexivity; vm_compute; reflexivity.
Defined.

(** C9 (unknown command).  The registry-level [Parse] never reads the
    selector: its [commandName] stays the empty string, so it reports
    [ErrorUnknownCommand] with the empty name whenever the empty name is
    unregistered, also when position 0 names a registered base command;
    and when the empty name is registered it goes on whatever the
    selector.  The command-level [Parse] never returns that error. *)
Theorem C9_UnknownCommand_ignores_selector :
  (forall rest r args h,
      prescan args = None -> maplookup r "" = None ->
      Registry_Parse rest r args h = Ret (None, Some (ErrorUnknownCommand "")) h) /\
  (forall rest, exists r,
      crnRegistry emptyHeap = Ret r (heapOf crnRegistry) /\
      maplookup r "crn" = Some (Some 0) /\
      Registry_Parse rest r ["crn"; "generate"] (heapOf crnRegistry)
      = Ret (None, Some (ErrorUnknownCommand "")) (heapOf crnRegistry)) /\
  (forall rest r args h p,
      prescan args = None -> maplookup r "" = Some p ->
      Registry_Parse rest r args h = rest r args h) /\
  (forall fuel cmd args h p name h',
      Parse fuel cmd args h <> Ret (p, Some (ErrorUnknownCommand name)) h').
Proof.
  split; [|split; [|split]].
  - intros rest r args h Hpre Hr. unfold Registry_Parse. now rewrite Hpre, Hr.
  - intros rest. eexists. split; [vm_compute; reflexivity|].
    split; reflexivity.
  - intros rest r args h p Hpre Hr. unfold Registry_Parse. now rewrite Hpre, Hr.
  - intros fuel cmd args h p name h' H.
    apply Parse_returns_only in H as [[val [=]]|(rest & _ & [=])].
Qed.

(** [C9] on the registry that is still empty. *)
Lemma C9_witness :
  prescan ["crn"; "generate"] = None /\
  maplookup NewRegistry "" = (None : option ptr) /\
  Registry_Parse noRest NewRegistry ["crn"; "generate"] emptyHeap
  = Ret (None, Some (ErrorUnknownCommand "")) emptyHeap.
Proof.
  split; [reflexivity|]. split; [reflexivity|].
  apply (proj1 C9_UnknownCommand_ignores_selector noRest NewRegistry
           ["crn"; "generate"] emptyHeap); reflexivity.
Defined.

(** C10 (no unknown flag).  Every flag-shaped token is unsupported, so
    the pre-scan rejects it, and [Parse] never returns
    [ErrorUnknownFlag]. *)
Theorem C10_Parse_never_UnknownFlag :
  (forall value, isFlag value = true -> isUnsupportedFlag value = true) /\
  (forall fuel cmd args h value,
      In value args -> isFlag value = true ->
      exists val, Parse fuel cmd args h = Ret (None, Some (ErrorUnsupportedFlag val)) h) /\
  (forall fuel cmd args h p name h',
      Parse fuel cmd args h <> Ret (p, Some (ErrorUnknownFlag name)) h').
Proof.
  split; [|split].
  - apply isFlag_isUnsupportedFlag.
  - intros fuel cmd args h value Hin Hf.
    destruct (prescan_flag args value Hin Hf) as [val Hpre]. exists val.
    unfold Parse. destruct args as [|a args]; [destruct Hin|].
    cbn [lookup list_lookup]. now rewrite Hpre.
  - intros fuel cmd args h p name h' H.
    apply Parse_returns_only in H as [[val [=]]|(rest & _ & [=])].
Qed.

(** [C10] on a flag-shaped token. *)
Lemma C10_witness :
  isFlag "ab" = true /\ isUnsupportedFlag "ab" = true.
Proof.
  split; [reflexivity|].
  apply (proj1 C10_Parse_never_UnknownFlag "ab"). reflexivity.
Defined.

(** ** Further properties: bytes, prefixes and trimming *)

Lemma bytes_of_bytes l : bytes (of_bytes l) = l.
Proof. induction l as [|c l IH]; [reflexivity|]. simpl. now rewrite IH. Qed.

Lemma of_bytes_bytes s : of_bytes (bytes s) = s.
Proof. induction s as [|c s IH]; [reflexivity|]. simpl. now rewrite IH. Qed.

Lemma bytes_append s t : bytes (s ++ t) = (bytes s ++ bytes t)%list.
Proof. induction s as [|c s IH]; [reflexivity|]. simpl. now rewrite IH. Qed.

Lemma of_bytes_app l1 l2 : of_bytes (l1 ++ l2) = of_bytes l1 ++ of_bytes l2.
Proof. induction l1 as [|c l1 IH]; [reflexivity|]. simpl. now rewrite IH. Qed.

Lemma rev_string_involutive s : rev_string (rev_string s) = s.
Proof.
  unfold rev_string. now rewrite bytes_of_bytes, rev_involutive, of_bytes_bytes.
Qed.

Lemma rev_string_append s t :
  rev_string (s ++ t) = rev_string t ++ rev_string s.
Proof.
  unfold rev_string. now rewrite bytes_append, rev_app_distr, of_bytes_app.
Qed.

Lemma length_bytes s : length (bytes s) = len s.
Proof. induction s as [|c s IH]; [reflexivity|]. simpl. now rewrite IH. Qed.

Lemma length_rev_string s : len (rev_string s) = len s.
Proof.
  unfold rev_string. rewrite <- length_bytes, bytes_of_bytes, length_rev.
  apply length_bytes.
Qed.

Lemma length_append s t : len (s ++ t) = len s + len t.
Proof. induction s as [|c s IH]; [reflexivity|]. simpl. now rewrite IH. Qed.

Lemma HasPrefix_length s prefix : HasPrefix s prefix = true -> len prefix <= len s.
Proof.
  revert s. induction prefix as [|p prefix IH]; intros s H; cbn; [lia|].
  destruct s as [|c s]; [discriminate|]. cbn in H.
  apply andb_prop in H as [_ H]. apply IH in H. cbn. lia.
Qed.

Lemma HasPrefix_append s prefix :
  HasPrefix s prefix = true -> exists t, s = prefix ++ t.
Proof.
  revert s. induction prefix as [|p prefix IH]; intros s H; [now exists s|].
  destruct s as [|c s]; [discriminate|]. cbn in H.
  apply andb_prop in H as [Hc H]. apply Ascii.eqb_eq in Hc as ->.
  destruct (IH _ H) as [t ->]. now exists t.
Qed.

(** [TrimLeft] takes off a run of cutset bytes, and what is left does not
    begin with one. *)
Lemma TrimLeft_split s cutset :
  exists pre, s = pre ++ TrimLeft s cutset /\
    Forall (fun c => in_cutset c cutset = true) (bytes pre).
Proof.
  induction s as [|c s (pre & E & Hpre)]; [now exists ""|].
  cbn. destruct (in_cutset c cutset) eqn:Hc.
  - exists (String c pre). split; [exact (f_equal (String c) E)|]. now constructor.
  - now exists "".
Qed.

Lemma TrimLeft_head s cutset c t :
  TrimLeft s cutset = String c t -> in_cutset c cutset = false.
Proof.
  induction s as [|d s IH]; [discriminate|]. cbn.
  destruct (in_cutset d cutset) eqn:Hd; [exact IH|].
  now intros [= <- _].
Qed.

Lemma TrimLeft_id s cutset :
  (forall c t, s = String c t -> in_cutset c cutset = false) ->
  TrimLeft s cutset = s.
Proof.
  destruct s as [|c s]; [reflexivity|]. intros H. cbn.
  now rewrite (H c s eq_refl).
Qed.

Lemma TrimRight_split s cutset :
  exists suf, s = TrimRight s cutset ++ suf /\
    Forall (fun c => in_cutset c cutset = true) (bytes suf).
Proof.
  unfold TrimRight.
  destruct (TrimLeft_split (rev_string s) cutset) as (pre & E & Hpre).
  exists (rev_string pre). split.
  - rewrite <- rev_string_append, <- E. symmetry. apply rev_string_involutive.
  - unfold rev_string. rewrite bytes_of_bytes. now apply Forall_rev.
Qed.

Lemma TrimRight_last s cutset c :
  in_cutset c cutset = true ->
  HasSuffix (TrimRight s cutset) (String c "") = false.
Proof.
  intros Hc. unfold HasSuffix, TrimRight. rewrite rev_string_involutive.
  destruct (TrimLeft (rev_string s) cutset) as [|d t] eqn:E; [reflexivity|].
  apply TrimLeft_head in E. cbn.
  destruct (Ascii.eqb_spec d c) as [->|]; [congruence|reflexivity].
Qed.

(** ** Further properties: the classifier *)

(** X1.  [isInvertedFlag] never recognises a token: a flag-shaped value
    has two bytes and the prefix it asks for has five. *)
Theorem X1_isInvertedFlag_never value : isInvertedFlag value = (false, "").
Proof.
  unfold isInvertedFlag.
  destruct (isFlag value) eqn:E; [|reflexivity].
  destruct (HasPrefix value "--no-") eqn:P; [|reflexivity].
  apply isFlag_length in E. apply HasPrefix_length in P. cbn in P. lia.
Qed.

(** X2.  [isShortFlag] is [isFlag]: its two further tests follow from
    the first. *)
Theorem X2_isShortFlag_is_isFlag value : isShortFlag value = isFlag value.
Proof.
  unfold isShortFlag. destruct (isFlag value) eqn:E; [|reflexivity].
  rewrite (isFlag_length _ E). cbn.
  destruct (HasPrefix value "--") eqn:P; [|reflexivity].
  apply HasPrefix_append in P as [t ->].
  unfold isFlag in E. cbn in E. now rewrite andb_false_r in E.
Qed.

(** X3.  [isFlag] holds exactly of the two-byte values whose first byte
    is not a dash. *)
Theorem X3_isFlag_shape value :
  isFlag value = true <->
  exists a b, value = String a (String b "") /\ a <> "-"%char.
Proof.
  split.
  - intros E. pose proof (isFlag_length _ E) as L.
    destruct value as [|a [|b [|]]]; try discriminate.
    exists a, b. split; [reflexivity|]. intros ->. discriminate.
  - intros (a & b & -> & Ha). unfold isFlag. cbn.
    destruct (Ascii.eqb_spec a "-"%char); [contradiction|reflexivity].
Qed.

(** X4.  [isVariadicArg] answers yes exactly when the value ends in
    three dots; the name it returns is the value without ALL its
    trailing dots, so it never ends in a dot. *)
Theorem X4_isVariadicArg_strips_all_dots value :
  fst (isVariadicArg value) = HasSuffix value "..." /\
  (forall name, isVariadicArg value = (true, name) ->
     HasSuffix name "." = false /\
     exists dots, value = name ++ dots /\ 3 <= len dots /\
       Forall (fun c => c = "."%char) (bytes dots)).
Proof.
  split.
  - unfold isVariadicArg. destruct (isFlag value) eqn:E; cbn.
    + destruct (HasSuffix value "...") eqn:S; [|reflexivity].
      apply isFlag_length in E. unfold HasSuffix in S.
      apply HasPrefix_length in S. rewrite !length_rev_string in S. cbn in S. lia.
    + now destruct (HasSuffix value "...").
  - intros name H. unfold isVariadicArg in H.
    destruct (negb (isFlag value) && HasSuffix value "...") eqn:E; [|discriminate].
    injection H as <-. apply andb_prop in E as [_ S].
    split; [now apply TrimRight_last|].
    unfold HasSuffix in S. apply HasPrefix_append in S as [t Ht].
    change (rev_string "...") with "..." in Ht.
    destruct (TrimLeft_split t "...") as (pre & Et & Hpre).
    exists (rev_string ("..." ++ pre)).
    assert (TrimRight value "..." = rev_string (TrimLeft t "...")) as ->.
    { unfold TrimRight. rewrite Ht. reflexivity. }
    split; [|split].
    + rewrite <- rev_string_append, <- (rev_string_involutive value), Ht.
      f_equal. exact (f_equal (fun x => "..." ++ x) Et).
    + rewrite length_rev_string, length_append. cbn. lia.
    + unfold rev_string. rewrite bytes_of_bytes. apply Forall_rev.
      rewrite bytes_append. apply Forall_app. split; [now repeat constructor|].
      eapply Forall_impl; [exact Hpre|]. intros c Hc. cbn in Hc.
      destruct (Ascii.eqb_spec c "."%char); [assumption|discriminate].
Qed.

(** Witnesses of X3 and X4. *)
Lemma X3_witness : exists a b, "ab" = String a (String b "") /\ a <> "-"%char.
Proof. apply (proj1 (X3_isFlag_shape "ab")). reflexivity. Defined.

Lemma X4_witness :
  isVariadicArg "tags...." = (true, "tags") /\
  HasSuffix "tags" "." = false /\
  exists dots, "tags...." = "tags" ++ dots /\ 3 <= len dots /\
    Forall (fun c => c = "."%char) (bytes dots).
Proof.
  split; [reflexivity|].
  apply (proj2 (X4_isVariadicArg_strips_all_dots "tags....") "tags"). reflexivity.
Defined.

(** ** Further properties: sanitising and normalising *)

Lemma DeleteAll_no_byte s old : ~ In old (bytes (DeleteAll s old)).
Proof.
  induction s as [|c s IH]; cbn; [tauto|].
  destruct (Ascii.eqb_spec c old) as [->|Hne]; [exact IH|].
  cbn. intros [E|H]; [congruence|contradiction].
Qed.

Lemma DeleteAll_id s old : ~ In old (bytes s) -> DeleteAll s old = s.
Proof.
  induction s as [|c s IH]; cbn; [reflexivity|]. intros H.
  destruct (Ascii.eqb_spec c old) as [->|Hne]; [tauto|].
  rewrite IH; [reflexivity|tauto].
Qed.

Lemma DeleteAll_filter s old :
  bytes (DeleteAll s old) = List.filter (fun c => negb (Ascii.eqb c old)) (bytes s).
Proof.
  induction s as [|c s IH]; [reflexivity|]. cbn [DeleteAll bytes List.filter].
  destruct (Ascii.eqb c old); cbn [negb bytes]; now rewrite IH.
Qed.

(** X5.  [removeWhitespaces] removes the space bytes and nothing else:
    the bytes of its result are the bytes of the value that are not a
    space, in their order.  So it leaves no space byte, changes nothing
    in a value without one, and is idempotent; a tab stays. *)
Theorem X5_removeWhitespaces_spaces_only :
  (forall value,
      bytes (removeWhitespaces value)
      = List.filter (fun c => negb (Ascii.eqb c " "%char)) (bytes value)) /\
  (forall value, ~ In " "%char (bytes (removeWhitespaces value))) /\
  (forall value, ~ In " "%char (bytes value) -> removeWhitespaces value = value) /\
  (forall value, removeWhitespaces (removeWhitespaces value) = removeWhitespaces value) /\
  removeWhitespaces (String "009"%char " a b ") = String "009"%char "ab".
Proof.
  split; [|split; [|split; [|split]]].
  - intros value. apply DeleteAll_filter.
  - intros value. apply DeleteAll_no_byte.
  - intros value. apply DeleteAll_id.
  - intros value. apply DeleteAll_id, DeleteAll_no_byte.
  - reflexivity.
Qed.

Lemma X5_witness :
  ~ In " "%char (bytes "crn") /\ removeWhitespaces "crn" = "crn".
Proof.
  assert (~ In " "%char (bytes "crn")) as H.
  { cbn. intros [E|[E|[E|[]]]]; discriminate. }
  split; [exact H|].
  apply (proj1 (proj2 (proj2 X5_removeWhitespaces_spaces_only)) "crn" H).
Defined.

(** X6.  [trimWhitespaces] returns the value between a run of leading
    and a run of trailing spaces, and its result neither begins nor
    ends with a space. *)
Theorem X6_trimWhitespaces_ends value :
  HasPrefix (trimWhitespaces value) " " = false /\
  HasSuffix (trimWhitespaces value) " " = false /\
  exists pre suf,
    value = pre ++ trimWhitespaces value ++ suf /\
    Forall (fun c => c = " "%char) (bytes pre) /\
    Forall (fun c => c = " "%char) (bytes suf).
Proof.
  unfold trimWhitespaces, Trim.
  destruct (TrimLeft_split value " ") as (pre & Epre & Hpre).
  destruct (TrimRight_split (TrimLeft value " ") " ") as (suf & Esuf & Hsuf).
  assert (forall l, Forall (fun c => in_cutset c " " = true) l ->
                    Forall (fun c => c = " "%char) l) as Hsp.
  { intros l Hl. eapply Forall_impl; [exact Hl|]. intros c Hc. cbn in Hc.
    destruct (Ascii.eqb_spec c " "%char); [assumption|discriminate]. }
  split; [|split].
  - destruct (TrimRight (TrimLeft value " ") " ") as [|c r] eqn:E; [reflexivity|].
    pose proof (TrimLeft_head value " " c (r ++ suf) Esuf) as Hc.
    cbn in Hc. cbn. destruct (Ascii.eqb c " "); [discriminate|reflexivity].
  - now apply TrimRight_last.
  - exists pre, suf. split; [|split; now apply Hsp].
    rewrite <- Esuf. exact Epre.
Qed.

Lemma appendParts_filter parts : forall formatted,
  appendParts formatted parts =
  (formatted ++ List.filter (fun part => negb (String.eqb (Trim part " ") "")) parts)%list.
Proof.
  induction parts as [|part parts IH]; intros formatted; cbn [appendParts List.filter].
  - now rewrite app_nil_r.
  - destruct (negb (String.eqb (Trim part " ") "")); rewrite IH.
    + now rewrite <- app_assoc.
    + reflexivity.
Qed.

Lemma formatLoop_app_acc values : forall formatted,
  formatLoop formatted values = (formatted ++ formatLoop [] values)%list.
Proof.
  induction values as [|value values IH]; intros formatted; cbn [formatLoop].
  - now rewrite app_nil_r.
  - destruct (isFlag value).
    + rewrite IH, (IH (appendParts [] _)), !appendParts_filter, app_assoc.
      reflexivity.
    + rewrite IH, (IH ([] ++ [value])%list), app_assoc. reflexivity.
Qed.

(** A flag-shaped value yields at most one part. *)
Lemma flag_parts_length value :
  isFlag value = true ->
  length (appendParts [] (Split value "="%char)) <= 1.
Proof.
  intros E. pose proof (isFlag_length _ E) as L.
  destruct value as [|a [|b [|]]]; try discriminate.
  rewrite appendParts_filter. cbn [Split app].
  destruct (Ascii.eqb a "="), (Ascii.eqb b "="); cbn [List.filter].
  - cbn. lia.
  - change (Trim "" " ") with "". cbn [String.eqb negb].
    destruct (negb _); cbn; lia.
  - destruct (negb (String.eqb (Trim (String a "") " ") "")); cbn; lia.
  - destruct (negb _); cbn; lia.
Qed.

(** X7.  [formatCommandValues] never lengthens the vector: a value it
    splits has two bytes and leaves at most one non-blank part, so no
    token is ever replaced by two. *)
Theorem X7_formatCommandValues_never_longer values :
  length (formatCommandValues values) <= length values.
Proof.
  unfold formatCommandValues.
  induction values as [|value values IH]; [cbn; lia|].
  cbn [formatLoop]. destruct (isFlag value) eqn:E;
    rewrite formatLoop_app_acc, length_app.
  - pose proof (flag_parts_length _ E). cbn [length]. lia.
  - cbn [length app]. lia.
Qed.

(** X8.  [formatCommandValues] treats every value on its own: the
    result for a vector is the results for its parts, one after the
    other. *)
Theorem X8_formatCommandValues_app l1 l2 :
  formatCommandValues (l1 ++ l2) =
  (formatCommandValues l1 ++ formatCommandValues l2)%list.
Proof.
  unfold formatCommandValues. induction l1 as [|value l1 IH]; [reflexivity|].
  cbn [app formatLoop].
  destruct (isFlag value);
    rewrite formatLoop_app_acc, IH, (formatLoop_app_acc l1 (_ _)), app_assoc;
    reflexivity.
Qed.

(** X9.  On a vector that passes the pre-scan of [Parse] the
    normalisation changes nothing: the loop sees the raw vector. *)
Theorem X9_prescan_passed_no_normalisation args :
  prescan args = None -> formatCommandValues args = args.
Proof. intros H. apply formatCommandValues_noflags, prescan_None, H. Qed.

Lemma X9_witness :
  prescan ["build"; "--out=bin"; "a=b"] = None /\
  formatCommandValues ["build"; "--out=bin"; "a=b"] = ["build"; "--out=bin"; "a=b"].
Proof.
  split; [reflexivity|].
  apply (X9_prescan_passed_no_normalisation ["build"; "--out=bin"; "a=b"]).
  reflexivity.
Defined.

(** ** Further properties: [Parse] and one turn of its loop *)

Lemma prescan_first pre value post :
  Forall (fun val => isFlag val = false) pre -> isFlag value = true ->
  prescan (pre ++ value :: post) = Some (ErrorUnsupportedFlag value).
Proof.
  intros Hpre E. induction Hpre as [|val pre Hval _ IH]; cbn.
  - now rewrite E, (isFlag_isUnsupportedFlag _ E).
  - now rewrite Hval.
Qed.

Lemma isShortFlag_flag value : isFlag value = true -> isShortFlag value = true.
Proof.
  intros E. unfold isShortFlag. rewrite E, (isFlag_length _ E). cbn.
  destruct (HasPrefix value "--") eqn:P; [|reflexivity].
  apply HasPrefix_append in P as [t ->].
  unfold isFlag in E. cbn in E. now rewrite andb_false_r in E.
Qed.

Lemma setArgValue_inv p v h u h' :
  setArgValue p v h = Ret u h' ->
  exists la a, p = Some la /\ args h !! la = Some a /\
    h' = mkHeap (flags h) (<[la:=Arg.setValue a v]> (args h)) (commands h)
           (registries h).
Proof.
  unfold setArgValue, derefArg. intros H.
  apply bind_inv_Ret in H as (a & h1 & Hd & H).
  apply deref_inv in Hd as (-> & la & -> & Ha).
  cbn in H. injection H as _ <-. now exists la, a.
Qed.

Lemma sameButValues_refl h : sameButValues h h.
Proof. repeat split. Qed.

Lemma sameButValues_trans h1 h2 h3 :
  sameButValues h1 h2 -> sameButValues h2 h3 -> sameButValues h1 h3.
Proof.
  intros (A1 & B1 & C1 & D1) (A2 & B2 & C2 & D2). repeat split; congruence.
Qed.

Lemma setArgValue_same p v h u h' :
  setArgValue p v h = Ret u h' -> sameButValues h h'.
Proof.
  intros H. apply setArgValue_inv in H as (la & a & -> & Ha & ->).
  repeat split. cbn. rewrite list_fmap_insert. apply list_insert_id.
  rewrite list_lookup_fmap, Ha. reflexivity.
Qed.

Lemma assignArg_same c value names : forall index h u h',
  assignArg c value index names h = Ret u h' -> sameButValues h h'.
Proof.
  induction names as [|argName names IH]; intros index h u h' H.
  - injection H as _ <-. apply sameButValues_refl.
  - cbn [assignArg] in H.
    apply bind_inv_Ret in H as (a & h1 & Hd & H).
    apply deref_inv in Hd as (-> & la & Hp & Ha).
    destruct (len (Arg.Value a) =? 0)%nat.
    + eapply setArgValue_same, H.
    + apply bind_inv_Ret in H as ([] & h2 & H1 & H2).
      apply (sameButValues_trans h h2 h'); [|eapply IH, H2].
      destruct ((index =? length (Command.ArgNames c) - 1)%nat && Arg.IsVariadic a).
      * eapply setArgValue_same, H1.
      * injection H1 as <-. apply sameButValues_refl.
Qed.

(** On a flag-shaped token the flag branch cannot reach its
    assignments: the token counts as a short flag, and the short-flag
    path leaves the local [flag] nil. *)
Lemma parseFlag_flag_shaped cmds value vs h t h' :
  isFlag value = true ->
  parseFlag cmds value vs h = Ret t h' ->
  t = Return (ErrorUnknownFlag value) /\ h' = h.
Proof.
  intros E H. unfold parseFlag, resolveFlag in H.
  rewrite (isShortFlag_flag _ E) in H.
  apply bind_inv_Ret in H as (r & h1 & Hr & H).
  apply bind_inv_Ret in Hr as (c & h0 & Hd & Hr).
  apply deref_inv in Hd as (-> & _).
  destruct (maplookup (Command.shorthandFlags c) (TrimLeft value "-")).
  - injection Hr as <- <-. discriminate H.
  - injection Hr as <- <-. now injection H as <- <-.
Qed.

Lemma parseToken_same cmds value vs h t h' :
  parseToken cmds value vs h = Ret t h' -> sameButValues h h'.
Proof.
  unfold parseToken. destruct (isFlag value) eqn:E; intros H.
  - apply (parseFlag_flag_shaped _ _ _ _ _ _ E) in H as [_ ->].
    apply sameButValues_refl.
  - apply bind_inv_Ret in H as (c & h0 & Hd & H).
    apply deref_inv in Hd as (-> & _).
    apply bind_inv_Ret in H as (u & h1 & Ha & H).
    injection H as _ <-. eapply assignArg_same, Ha.
Qed.

(** X10.  The pre-scan reports the first flag-shaped entry of the
    vector, whatever the fuel and the receiver (nil included), and
    leaves the heap as it is. *)
Theorem X10_Parse_reports_first_flag_shaped pre value post :
  Forall (fun val => isFlag val = false) pre -> isFlag value = true ->
  forall fuel cmd h,
    Parse fuel cmd (pre ++ value :: post) h
    = Ret (None, Some (ErrorUnsupportedFlag value)) h.
Proof.
  intros Hpre E fuel cmd h. unfold Parse.
  rewrite (prescan_first pre value post Hpre E).
  destruct pre; reflexivity.
Qed.

Lemma X10_witness :
  Parse 0 None (["generate"; "-g"] ++ "ab" :: ["cd"]) emptyHeap
  = Ret (None, Some (ErrorUnsupportedFlag "ab")) emptyHeap.
Proof.
  apply (X10_Parse_reports_first_flag_shaped ["generate"; "-g"] "ab" ["cd"]).
  - repeat constructor.
  - reflexivity.
Defined.

Lemma parseLoop_ignores_tail cmds value rest rest' :
  isFlag value = false ->
  forall fuel h,
    parseLoop fuel cmds (value :: rest) h = parseLoop fuel cmds (value :: rest') h.
Proof.
  intros E fuel. induction fuel as [|fuel IH]; intros h; [reflexivity|].
  cbn [parseLoop next]. destruct (len value =? 0)%nat; [reflexivity|].
  unfold parseToken. rewrite E.
  unfold mbind, M_bind, mret, M_ret.
  destruct (derefCommand cmds h) as [c h0| |]; try reflexivity.
  destruct (assignArg c value 0 (Command.ArgNames c) h0) as [u h1| |];
    try reflexivity.
  apply IH.
Qed.

(** X11.  On a vector that passes the pre-scan the outcome of [Parse]
    depends on its first entry only: the entries after it can be
    replaced by any others that pass the pre-scan, for every fuel,
    receiver and heap. *)
Theorem X11_Parse_ignores_all_but_first fuel cmd value rest rest' h :
  prescan (value :: rest) = None -> prescan (value :: rest') = None ->
  Parse fuel cmd (value :: rest) h = Parse fuel cmd (value :: rest') h.
Proof.
  intros H H'. unfold Parse. cbn [lookup list_lookup].
  rewrite H, H', !formatCommandValues_noflags by now apply prescan_None.
  unfold mbind, M_bind. destruct (derefRegistry cmd h) as [cr h0| |]; try reflexivity.
  apply parseLoop_ignores_tail.
  pose proof (prescan_None _ H) as Hall. now inversion Hall.
Qed.

Lemma X11_witness :
  Parse 9 (Some 0) ["generate"; "-g"; "myval"; "result.txt"] (heapOf generateSetup)
  = Parse 9 (Some 0) ["generate"] (heapOf generateSetup).
Proof.
  apply (X11_Parse_ignores_all_but_first 9 (Some 0) "generate"
           ["-g"; "myval"; "result.txt"] [] (heapOf generateSetup));
    reflexivity.
Defined.

(** X12.  A vector whose first entry is the empty string is accepted at
    once: [Parse] returns what the map holds under the empty name, no
    error, and the heap untouched; no further entry is looked at beyond
    the pre-scan. *)
Theorem X12_Parse_empty_selector fuel cmd cr rest h :
  prescan rest = None -> registries h !! cmd = Some cr ->
  Parse (S fuel) (Some cmd) ("" :: rest) h
  = Ret (mapget None (CommandRegistry.Commands cr) "", None) h.
Proof.
  intros Hpre Hcr.
  rewrite (Parse_unfold (S fuel) cmd "" rest h cr); [reflexivity| |exact Hcr].
  exact Hpre.
Qed.

Lemma X12_witness :
  Parse 1 (Some 0) [""; "-g"; "myval"; "result.txt"] (heapOf generateSetup)
  = Ret (None, None) (heapOf generateSetup).
Proof.
  destruct (registries (heapOf generateSetup) !! 0%nat) as [cr|] eqn:E.
  - rewrite (X12_Parse_empty_selector 0 0 cr ["-g"; "myval"; "result.txt"]
               (heapOf generateSetup) eq_refl E).
    vm_compute in E. injection E as <-. reflexivity.
  - vm_compute in E. discriminate.
Defined.

(** X13.  One turn of the loop, on any token, writes nothing but the
    [Value] of arguments: flags, commands, registry entries, and the
    name, kind and default of every argument stay as they are.  So do
    any number of turns. *)
Theorem X13_turns_write_argument_values_only :
  (forall cmds value vs h t h',
      parseToken cmds value vs h = Ret t h' -> sameButValues h h') /\
  (forall n cmds formattedArguments h u h',
      turns n cmds formattedArguments h = Ret u h' -> sameButValues h h').
Proof.
  split; [apply parseToken_same|].
  induction n as [|n IH]; intros cmds fa h u h' H.
  - injection H as _ <-. apply sameButValues_refl.
  - cbn [turns] in H. destruct (next fa) as [value vs].
    apply bind_inv_Ret in H as (t & h1 & H1 & H2).
    eapply sameButValues_trans; [eapply parseToken_same, H1|eapply IH, H2].
Qed.

Lemma X13_witness :
  sameButValues (heapOf greetSetup)
    (heapOf (greetSetup;; turns 3 (Some 0) ["greet"; "alice"])).
Proof.
  apply (proj2 X13_turns_write_argument_values_only 3 (Some 0) ["greet"; "alice"]
           (heapOf greetSetup) tt).
  vm_compute. reflexivity.
Defined.

(** X14.  The flag branch never assigns: on a flag-shaped token it
    returns [ErrorUnknownFlag] with the token and the heap untouched,
    or panics; it never falls through to the next turn. *)
Theorem X14_flag_branch_never_assigns cmds value vs h t h' :
  isFlag value = true ->
  parseToken cmds value vs h = Ret t h' ->
  t = Return (ErrorUnknownFlag value) /\ h' = h.
Proof.
  intros E H. unfold parseToken in H. rewrite E in H.
  now apply (parseFlag_flag_shaped cmds value vs h).
Qed.

Lemma X14_witness :
  isFlag "ab" = true /\
  parseToken (Some 0) "ab" [] (heapOf generateSetup)
  = Ret (Return (ErrorUnknownFlag "ab")) (heapOf generateSetup) /\
  Return (ErrorUnknownFlag "ab") = Return (ErrorUnknownFlag "ab") /\
  heapOf generateSetup = heapOf generateSetup.
Proof.
  assert (parseToken (Some 0) "ab" [] (heapOf generateSetup)
          = Ret (Return (ErrorUnknownFlag "ab")) (heapOf generateSetup)) as H
    by (vm_compute; reflexivity).
  split; [reflexivity|]. split; [exact H|].
  exact (X14_flag_branch_never_assigns (Some 0) "ab" [] (heapOf generateSetup)
           _ _ eq_refl H).
Defined.

(** X27.  A call of [Parse] that returns has written nothing: the heap
    it leaves is the heap it was given. *)
Theorem X27_Parse_returns_heap_untouched fuel cmd args h r h' :
  Parse fuel cmd args h = Ret r h' -> h' = h.
Proof.
  unfold Parse. destruct args as [|commandName rest]; cbn [lookup list_lookup].
  - discriminate.
  - destruct (prescan (commandName :: rest)) as [e|] eqn:Hpre.
    + now intros [= _ <-].
    + rewrite (formatCommandValues_noflags _ (prescan_None _ Hpre)).
      intros H. apply bind_inv_Ret in H as (cr & h1 & Hd & H).
      apply deref_inv in Hd as (-> & _).
      destruct (Nat.eq_dec (len commandName) 0) as [E|E].
      * destruct commandName; [|discriminate].
        destruct fuel; [discriminate|]. cbn in H. now injection H as _ <-.
      * exfalso. revert H. apply parseLoop_positional_no_return; [|assumption].
        pose proof (prescan_None _ Hpre) as Hall. now inversion Hall.
Qed.

Lemma X27_witness :
  Parse 3 (Some 0) ["generate"; "ab"] (heapOf generateSetup)
  = Ret (None, Some (ErrorUnsupportedFlag "ab")) (heapOf generateSetup) /\
  heapOf generateSetup = heapOf generateSetup.
Proof.
  assert (Parse 3 (Some 0) ["generate"; "ab"] (heapOf generateSetup)
          = Ret (None, Some (ErrorUnsupportedFlag "ab")) (heapOf generateSetup)) as H
    by (vm_compute; reflexivity).
  split; [exact H|].
  exact (X27_Parse_returns_heap_untouched 3 (Some 0) ["generate"; "ab"]
           (heapOf generateSetup) _ _ H).
Defined.

(** ** Further properties: where a positional token goes *)

Lemma setArgValue_Some la a v h :
  args h !! la = Some a ->
  setArgValue (Some la) v h = Ret tt (withArgValue h la a v).
Proof.
  intros Ha. unfold setArgValue, derefArg.
  now rewrite (bind_Ret _ _ _ _ _ (deref_Some args la h a Ha)).
Qed.

Lemma argFilled_inv h c m :
  argFilled h c m = true ->
  exists lm am, mapget None (Command.Args c) m = Some lm /\
    args h !! lm = Some am /\ (len (Arg.Value am) =? 0)%nat = false.
Proof.
  unfold argFilled.
  destruct (mapget None (Command.Args c) m) as [lm|] eqn:Hp; [|discriminate].
  destruct (args h !! lm) as [am|] eqn:Ha; [|discriminate].
  intros H. exists lm, am. split; [reflexivity|]. split; [exact Ha|].
  now destruct (len (Arg.Value am) =? 0)%nat.
Qed.

(** The scan passes over filled arguments that are not at the last
    index without writing. *)
Lemma assignArg_skip c value pre names h : forall index,
  forallb (argFilled h c) pre = true ->
  index + length pre < length (Command.ArgNames c) ->
  assignArg c value index (pre ++ names) h
  = assignArg c value (index + length pre) names h.
Proof.
  induction pre as [|m pre IH]; intros index Hpre Hidx.
  - cbn. now rewrite Nat.add_0_r.
  - cbn [forallb] in Hpre. apply andb_prop in Hpre as [Hm Hpre].
    apply argFilled_inv in Hm as (lm & am & Hp & Ha & Hv).
    cbn [app assignArg length] in *. rewrite Hp. unfold derefArg at 1.
    rewrite (bind_Ret _ _ _ _ _ (deref_Some args lm h am Ha)), Hv.
    destruct (Nat.eqb_spec index (length (Command.ArgNames c) - 1)) as [E|_];
      [lia|].
    cbn [andb]. unfold mbind at 1, M_bind, mret, M_ret.
    rewrite IH by (assumption || lia). f_equal. lia.
Qed.

(** X15.  A positional token goes to the first declared argument whose
    value is empty: the arguments declared before it are only read, and
    nothing else in the heap changes. *)
Theorem X15_positional_first_empty l c value vs h pre n post la a :
  isFlag value = false -> commands h !! l = Some c ->
  Command.ArgNames c = (pre ++ n :: post)%list ->
  forallb (argFilled h c) pre = true ->
  mapget None (Command.Args c) n = Some la -> args h !! la = Some a ->
  Arg.Value a = "" ->
  parseToken (Some l) value vs h = Ret (Next vs) (withArgValue h la a value).
Proof.
  intros E Hc Hn Hpre Hp Ha Hv. unfold parseToken, derefCommand. rewrite E.
  rewrite (bind_Ret _ _ _ _ _ (deref_Some commands l h c Hc)).
  assert (assignArg c value 0 (Command.ArgNames c) h
          = Ret tt (withArgValue h la a value)) as Hrun;
    [|now rewrite (bind_Ret _ _ _ _ _ Hrun)].
  rewrite Hn at 1.
  rewrite assignArg_skip by (assumption || (rewrite Hn, length_app; cbn; lia)).
  cbn [assignArg]. rewrite Hp. unfold derefArg.
  rewrite (bind_Ret _ _ _ _ _ (deref_Some args la h a Ha)), Hv. cbn.
  now apply setArgValue_Some.
Qed.

Lemma X15_witness :
  parseToken (Some 0) "alice" ["x"] (greetHeap "")
  = Ret (Next ["x"])
      (withArgValue (greetHeap "") 3 (Arg.mk "tags" true "" "") "alice").
Proof.
  refine (X15_positional_first_empty 0 _ "alice" ["x"] (greetHeap "")
            ["name"] "tags" [] 3 (Arg.mk "tags" true "" "") eq_refl _ _ _ _ _ eq_refl);
    vm_compute; reflexivity.
Defined.

(** X16.  When every declared argument holds a value, a positional
    token is appended, after a comma, to the last argument if that one
    is variadic, and is dropped without a trace otherwise. *)
Theorem X16_positional_all_filled l c value vs h pre n la a :
  isFlag value = false -> commands h !! l = Some c ->
  Command.ArgNames c = (pre ++ [n])%list ->
  forallb (argFilled h c) pre = true ->
  mapget None (Command.Args c) n = Some la -> args h !! la = Some a ->
  Arg.Value a <> "" ->
  parseToken (Some l) value vs h
  = Ret (Next vs)
      (if Arg.IsVariadic a
       then withArgValue h la a (Arg.Value a ++ "," ++ value)
       else h).
Proof.
  intros E Hc Hn Hpre Hp Ha Hv. unfold parseToken, derefCommand. rewrite E.
  rewrite (bind_Ret _ _ _ _ _ (deref_Some commands l h c Hc)).
  assert (assignArg c value 0 (Command.ArgNames c) h
          = Ret tt (if Arg.IsVariadic a
                    then withArgValue h la a (Arg.Value a ++ "," ++ value)
                    else h)) as Hrun;
    [|now rewrite (bind_Ret _ _ _ _ _ Hrun)].
  rewrite Hn at 1.
  rewrite assignArg_skip by (assumption || (rewrite Hn, length_app; cbn; lia)).
  cbn [assignArg]. rewrite Hp. unfold derefArg.
  rewrite (bind_Ret _ _ _ _ _ (deref_Some args la h a Ha)).
  destruct (Arg.Value a) as [|v0 vrest] eqn:Ev; [contradiction|].
  cbn [String.length Nat.eqb].
  rewrite Hn, length_app. cbn [length Nat.add].
  replace (length pre + 1 - 1) with (length pre) by lia.
  rewrite Nat.eqb_refl. cbn [andb].
  destruct (Arg.IsVariadic a).
  - now rewrite (bind_Ret _ _ _ tt _ (setArgValue_Some la a _ h Ha)).
  - reflexivity.
Qed.

Lemma X16_witness :
  parseToken (Some 0) "y" [] (greetHeap "x")
  = Ret (Next []) (withArgValue (greetHeap "x") 3 (Arg.mk "tags" true "" "x") "x,y").
Proof.
  refine (X16_positional_all_filled 0 _ "y" [] (greetHeap "x")
            ["name"] "tags" 3 (Arg.mk "tags" true "" "x") eq_refl _ _ _ _ _ _);
    try (vm_compute; reflexivity).
  discriminate.
Defined.

(** ** Further properties: the registry *)

Lemma newRegistry_inv r h p h' :
  newRegistry r h = Ret p h' ->
  p = Some (length (registries h)) /\
  h' = mkHeap (flags h) (args h) (commands h) (registries h ++ [r]).
Proof. now intros [= <- <-]. Qed.

(** X17.  [Register] is a lookup-or-insert under the name without its
    spaces: after it has returned, the registry holds the returned
    entry under that name and every other name as before, and a later
    [Register] of any name that is the same up to spaces returns the
    same entry with [true] and changes nothing, whatever version and
    description it is given.  A new entry has the cleaned name and an
    empty, non-nil map of commands. *)
Theorem X17_Register_lookup_or_insert r name version desc h r' p b h' :
  Register r name version desc h = Ret (r', (p, b)) h' ->
  maplookup r' (removeWhitespaces name) = Some p /\
  (forall k, k <> removeWhitespaces name -> maplookup r' k = maplookup r k) /\
  (forall name' version' desc',
      removeWhitespaces name' = removeWhitespaces name ->
      Register r' name' version' desc' h' = Ret (r', (p, true)) h') /\
  (b = false ->
   derefRegistry p h'
   = Ret (CommandRegistry.mk (removeWhitespaces name) version desc (Some ∅)) h').
Proof.
  unfold Register. intros H.
  destruct (maplookup r (removeWhitespaces name)) as [cc|] eqn:Hk.
  - injection H as <- <- <- <-.
    split; [exact Hk|]. split; [reflexivity|]. split; [|discriminate].
    intros name' version' desc' ->. unfold Register. now rewrite Hk.
  - apply bind_inv_Ret in H as (cc & h1 & Hn & H).
    apply newRegistry_inv in Hn as [-> ->].
    apply bind_inv_Ret in H as (m & h2 & Hm & H).
    apply mapset_inv in Hm as (-> & g & -> & ->).
    injection H as <- <- <- <-.
    assert (maplookup (Some (<[removeWhitespaces name:=Some (length (registries h))]> g))
              (removeWhitespaces name) = Some (Some (length (registries h)))) as Hnew
      by apply lookup_insert_eq.
    split; [exact Hnew|]. split; [|split].
    + intros k Hne. cbn. now apply lookup_insert_ne.
    + intros name' version' desc' ->. unfold Register. now rewrite Hnew.
    + intros _. apply deref_Some. cbn. now apply list_lookup_middle.
Qed.

Lemma X17_witness :
  maplookup (Some ({["crn" := Some 0]} : gmap string ptr)) "crn" = Some (Some 0) /\
  Register (Some {["crn" := Some 0]}) "c r n" "9.9" "again" (heapOf crnRegistry)
  = Ret (Some {["crn" := Some 0]}, (Some 0, true)) (heapOf crnRegistry).
Proof.
  assert (Register NewRegistry "crn" "1.2" "CRN Generator Command" emptyHeap
          = Ret (Some {["crn" := Some 0]}, (Some 0, false)) (heapOf crnRegistry)) as H
    by (vm_compute; reflexivity).
  destruct (X17_Register_lookup_or_insert _ _ _ _ _ _ _ _ _ H) as (H1 & _ & H3 & _).
  split; [exact H1|]. apply (H3 "c r n" "9.9" "again"). reflexivity.
Defined.

Lemma storeRegistry_inv p r h u h' :
  storeRegistry p r h = Ret u h' ->
  exists l, p = Some l /\
    h' = mkHeap (flags h) (args h) (commands h) (<[l:=r]> (registries h)).
Proof. destruct p as [l|]; [|discriminate]. intros [= _ <-]. now exists l. Qed.

(** X18.  [AddCommand] puts the command under its name into the
    registry entry, whatever was there under that name before, and
    returns the command's struct; the other names, and the flags,
    arguments and commands of the heap stay as they are.  From then on
    [Parse] on a vector that begins with that name runs its loop on
    that command. *)
Theorem X18_AddCommand_registers cr cmd h c h' :
  AddCommand cr cmd h = Ret c h' ->
  exists lr lc r r',
    cr = Some lr /\ cmd = Some lc /\
    registries h !! lr = Some r /\ commands h !! lc = Some c /\
    registries h' !! lr = Some r' /\
    mapget None (CommandRegistry.Commands r') (Command.Name c) = Some lc /\
    (forall k, k <> Command.Name c ->
       maplookup (CommandRegistry.Commands r') k
       = maplookup (CommandRegistry.Commands r) k) /\
    flags h' = flags h /\ args h' = args h /\ commands h' = commands h /\
    (forall fuel rest,
       prescan (Command.Name c :: rest) = None ->
       Parse fuel cr (Command.Name c :: rest) h'
       = parseLoop fuel cmd (Command.Name c :: rest) h').
Proof.
  unfold AddCommand, derefRegistry, derefCommand. intros H.
  apply bind_inv_Ret in H as (r & h0 & Hd & H).
  apply deref_inv in Hd as (-> & lr & -> & Hr).
  apply bind_inv_Ret in H as (c0 & h0 & Hd & H).
  apply deref_inv in Hd as (-> & lc & -> & Hc).
  apply bind_inv_Ret in H as (m & h1 & Hm & H).
  apply mapset_inv in Hm as (-> & g & Hg & ->).
  apply bind_inv_Ret in H as ([] & h2 & Hs & H).
  apply storeRegistry_inv in Hs as (? & [= <-] & ->).
  assert (mapget None (Some (<[Command.Name c0:=Some lc]> g)) (Command.Name c0)
          = Some lc) as Hget.
  { unfold mapget, maplookup. now rewrite lookup_insert_eq. }
  rewrite Hget in H. apply deref_inv in H as (-> & ? & [= <-] & Hc').
  cbn in Hc'. assert (c = c0) as -> by congruence.
  set (r' := CommandRegistry.mk (CommandRegistry.BaseCommand r)
               (CommandRegistry.Version r) (CommandRegistry.Description r)
               (Some (<[Command.Name c0:=Some lc]> g))).
  assert (<[lr:=r']> (registries h) !! lr = Some r') as Hr'.
  { apply list_lookup_insert_eq. eapply lookup_lt_Some, Hr. }
  exists lr, lc, r, r'. repeat split; try assumption.
  - intros k Hne. rewrite Hg. cbn. now apply lookup_insert_ne.
  - intros fuel rest Hpre.
    rewrite (Parse_unfold fuel lr _ rest _ r' Hpre); [|exact Hr'].
    unfold r'. cbn [CommandRegistry.Commands]. now rewrite Hget.
Qed.

Lemma X18_witness :
  exists lr lc r r',
    Some 0 = Some lr /\ Some 0 = Some lc /\
    registries (heapOf (crnRegistry;; newCommand (declare "generate"))) !! lr = Some r /\
    commands (heapOf (crnRegistry;; newCommand (declare "generate"))) !! lc
    = Some (declare "generate") /\
    registries (heapOf (crnRegistry;; newCommand (declare "generate");;
                        AddCommand (Some 0) (Some 0))) !! lr = Some r' /\
    mapget None (CommandRegistry.Commands r') "generate" = Some lc.
Proof.
  destruct (X18_AddCommand_registers (Some 0) (Some 0)
              (heapOf (crnRegistry;; newCommand (declare "generate")))
              (declare "generate")
              (heapOf (crnRegistry;; newCommand (declare "generate");;
                       AddCommand (Some 0) (Some 0))))
    as (lr & lc & r & r' & H1 & H2 & H3 & H4 & H5 & H6 & _).
  { vm_compute. reflexivity. }
  exists lr, lc, r, r'. repeat split; assumption.
Defined.

(** ** Further properties: declaring arguments and flags *)

Lemma storeCommand_inv p c h u h' :
  storeCommand p c h = Ret u h' ->
  exists l, p = Some l /\
    h' = mkHeap (flags h) (args h) (<[l:=c]> (commands h)) (registries h).
Proof. destruct p as [l|]; [|discriminate]. intros [= _ <-]. now exists l. Qed.

(** What a first registration by [AddArg] does to the heap. *)
Lemma AddArg_fresh_inv cmd arg h p h' :
  AddArg cmd arg h = Ret (p, false) h' ->
  exists la a lc c g key variadic dflt,
    arg = Some la /\ args h !! la = Some a /\
    cmd = Some lc /\ commands h !! lc = Some c /\
    sanitiseArg a = (key, variadic, dflt) /\
    Command.Args c = Some g /\ g !! key = None /\ p = arg /\
    h' = mkHeap (flags h) (args h ++ [Arg.mk key variadic dflt ""])
           (<[lc:=Command.mk (Command.Name c) (Command.Flags c)
                    (Command.shorthandFlags c)
                    (Some (<[key:=Some (length (args h))]> g))
                    (Command.ArgNames c ++ [key])]> (commands h))
           (registries h).
Proof.
  unfold AddArg, derefArg, derefCommand. intros H.
  apply bind_inv_Ret in H as (a & h0 & Hd & H).
  apply deref_inv in Hd as (-> & la & -> & Ha).
  destruct (sanitiseArg a) as [[key variadic] dflt] eqn:Es.
  apply bind_inv_Ret in H as (c & h0 & Hd & H).
  apply deref_inv in Hd as (-> & lc & -> & Hc).
  destruct (maplookup (Command.Args c) key) as [_arg|] eqn:Hk; [discriminate|].
  apply bind_inv_Ret in H as (newArg & h2 & Hn & H).
  injection Hn as <- <-.
  apply bind_inv_Ret in H as (Args' & h3 & Hm & H).
  apply mapset_inv in Hm as (-> & g & Hg & ->).
  apply bind_inv_Ret in H as ([] & h4 & Hst & H).
  apply storeCommand_inv in Hst as (? & [= <-] & ->).
  injection H as <- <-.
  exists la, a, lc, c, g, key, variadic, dflt.
  rewrite Hg in Hk. repeat split; assumption.
Qed.

Lemma AddArg_existing_inv cmd arg h p h' :
  AddArg cmd arg h = Ret (p, true) h' -> h' = h.
Proof.
  unfold AddArg, derefArg, derefCommand. intros H.
  apply bind_inv_Ret in H as (a & h0 & Hd & H).
  apply deref_inv in Hd as (-> & la & -> & Ha).
  destruct (sanitiseArg a) as [[key variadic] dflt].
  apply bind_inv_Ret in H as (c & h0 & Hd & H).
  apply deref_inv in Hd as (-> & lc & -> & Hc).
  destruct (maplookup (Command.Args c) key) as [_arg|].
  - now injection H as _ <-.
  - apply bind_inv_Ret in H as (newArg & h2 & _ & H).
    apply bind_inv_Ret in H as (Args' & h3 & _ & H).
    apply bind_inv_Ret in H as (u & h4 & _ & H). discriminate.
Qed.



Lemma forallb_agree {A} (f g : A -> bool) l :
  (forall x, In x l -> f x = g x) -> forallb f l = forallb g l.
Proof.
  induction l as [|a l IH]; [reflexivity|]. intros H. cbn.
  rewrite (H a (or_introl eq_refl)), IH; [reflexivity|].
  intros x Hx. apply H. now right.
Qed.

Lemma forallb_argAllocated_grow h c x names :
  forallb (argAllocated h c) names = true ->
  forallb (argAllocated
             (mkHeap (flags h) (args h ++ [x]) (commands h) (registries h)) c)
    names = true.
Proof.
  induction names as [|n names IH]; [reflexivity|]. cbn [forallb].
  intros H. apply andb_prop in H as [H1 H2]. rewrite (IH H2), andb_true_r.
  unfold argAllocated in *.
  destruct (mapget None (Command.Args c) n) as [la|]; [|discriminate].
  apply Nat.ltb_lt in H1. apply Nat.ltb_lt. cbn. rewrite length_app. cbn. lia.
Qed.

(** X20.  [AddArg] keeps the argument tables of a command well formed:
    if the declaration-order list names exactly the keys of the
    argument map, without repetition, and all of them are allocated,
    the same holds after the call.  A freshly declared command is well
    formed. *)
Theorem X20_AddArg_keeps_well_formed :
  (forall h name, argsWellFormed h (declare name)) /\
  (forall lc arg h c r h',
      commands h !! lc = Some c -> argsWellFormed h c ->
      AddArg (Some lc) arg h = Ret r h' ->
      exists c', commands h' !! lc = Some c' /\ argsWellFormed h' c').
Proof.
  split.
  - intros h name. split; [constructor|]. split; [|reflexivity].
    intros n. cbn. rewrite lookup_empty. split.
    + intros H. inversion H.
    + intros [x [=]].
  - intros lc arg h c [p [|]] h' Hc (Hnd & Hkeys & Halloc) H.
    + apply AddArg_existing_inv in H as ->. exists c.
      exact (conj Hc (conj Hnd (conj Hkeys Halloc))).
    + apply AddArg_fresh_inv in H
        as (la & a & ? & c0 & g & key & variadic & dflt & -> & Ha & [= <-] & Hc0
            & Es & Hg & Hk & _ & ->).
      assert (c0 = c) as -> by congruence.
      assert (key ∉ Command.ArgNames c) as Hfresh.
      { intros Hin. apply Hkeys in Hin as [x Hx].
        rewrite Hg in Hx. cbn in Hx. congruence. }
      eexists. split; [apply list_lookup_insert_eq; eapply lookup_lt_Some, Hc|].
      split; [|split]; cbn.
      * apply NoDup_app. split; [assumption|]. split; [|apply NoDup_singleton].
        intros x Hx Hx'. apply list_elem_of_singleton in Hx' as ->. contradiction.
      * intros n. rewrite elem_of_app, list_elem_of_singleton, Hkeys, Hg. cbn.
        destruct (decide (key = n)) as [->|Hne].
        -- rewrite lookup_insert_eq. split; [eauto|]. intros _. now right.
        -- rewrite lookup_insert_ne by assumption. split; [|now left].
           intros [H|H]; [assumption|congruence].
      * unfold argsAllocated. cbn. rewrite forallb_app. apply andb_true_intro. split.
        -- unfold argsAllocated in Halloc.
           apply (forallb_argAllocated_grow h c (Arg.mk key variadic dflt "")) in Halloc.
           erewrite forallb_agree; [exact Halloc|].
           intros n Hn. unfold argAllocated, mapget, maplookup. cbn. rewrite Hg.
           rewrite lookup_insert_ne; [reflexivity|].
           intros ->. apply Hfresh. now apply list_elem_of_In.
        -- cbn. unfold argAllocated, mapget. cbn. rewrite lookup_insert_eq.
           cbn. rewrite length_app, andb_true_r. apply Nat.ltb_lt. cbn. lia.
Qed.

Lemma X20_witness :
  exists c',
    commands (heapOf (declareSetup;; AddArg (Some 0) (Some 0))) !! 0%nat = Some c' /\
    argsWellFormed (heapOf (declareSetup;; AddArg (Some 0) (Some 0))) c'.
Proof.
  apply (proj2 X20_AddArg_keeps_well_formed 0 (Some 0) (heapOf declareSetup)
           (declare "generate") (Some 0, false)).
  - vm_compute. reflexivity.
  - apply (proj1 X20_AddArg_keeps_well_formed).
  - vm_compute. reflexivity.
Defined.

Lemma slice_to_1_length s : len (slice_to s 1) <= 1.
Proof. destruct s as [|c [|d s]]; cbn; lia. Qed.

Lemma slice_to_1_bytes s c : In c (bytes (slice_to s 1)) -> In c (bytes s).
Proof. destruct s as [|d [|e s]]; cbn; tauto. Qed.

(** X21.  What [AddFlag] derives from a declaration: the shorthand has
    at most one byte and no space; a flag is inverted exactly when it
    is boolean and its declared name begins with [no-]; an inverted
    flag has no shorthand and default [true]; any other boolean flag
    has default [false]; a value-taking flag keeps its cleaned name and
    default. *)
Theorem X21_sanitiseFlag_invariants f :
  let '(name, short, inverted, dflt) := sanitiseFlag f in
  len short <= 1 /\
  ~ In " "%char (bytes short) /\
  inverted = Flag.IsBoolean f && HasPrefix (Flag.Name f) "no-" /\
  (inverted = true -> short = "" /\ dflt = "true") /\
  (Flag.IsBoolean f = true -> inverted = false -> dflt = "false") /\
  (Flag.IsBoolean f = false ->
   name = removeWhitespaces (Flag.Name f) /\
   dflt = removeWhitespaces (Flag.Default f)).
Proof.
  unfold sanitiseFlag.
  set (s := removeWhitespaces (Flag.ShortName f)).
  assert (len (if negb (String.eqb s "") then slice_to s 1 else s) <= 1) as Hlen.
  { destruct (String.eqb_spec s "") as [->|_]; cbn [negb]; [cbn; lia|].
    apply slice_to_1_length. }
  assert (~ In " "%char (bytes (if negb (String.eqb s "") then slice_to s 1 else s)))
    as Hsp.
  { assert (~ In " "%char (bytes s)) as Hs by apply DeleteAll_no_byte.
    destruct (negb (String.eqb s "")); [|exact Hs].
    intros H. apply Hs. now apply slice_to_1_bytes. }
  destruct (Flag.IsBoolean f); [destruct (HasPrefix (Flag.Name f) "no-")|]; cbn.
  all: repeat split; try discriminate; try assumption; try (cbn; lia); try tauto.
Qed.

Lemma X21_witness :
  (sanitiseFlag (Flag.mk "no-verbose" "v" true false "x" "")).1.1.2 = "" /\
  (sanitiseFlag (Flag.mk "no-verbose" "v" true false "x" "")).2 = "true".
Proof.
  pose proof (X21_sanitiseFlag_invariants
                (Flag.mk "no-verbose" "v" true false "x" "")) as H.
  cbn in H. destruct H as (_ & _ & _ & H & _). apply H. reflexivity.
Defined.




(** X23.  The name of an inverted flag is the declared name without
    every leading byte among [n], [o] and [-], not without the prefix
    [no-] alone: it never begins with one of these bytes, so
    [no-notify] is stored as [tify]. *)
Theorem X23_inverted_name_strips_byte_set f :
  Flag.IsBoolean f = true -> HasPrefix (Flag.Name f) "no-" = true ->
  flagKey f = TrimLeft (Flag.Name f) "no-" /\
  (forall c t, flagKey f = String c t ->
     c <> "n"%char /\ c <> "o"%char /\ c <> "-"%char) /\
  (exists stripped,
     Flag.Name f = stripped ++ flagKey f /\ 3 <= len stripped /\
     Forall (fun c => c = "n"%char \/ c = "o"%char \/ c = "-"%char) (bytes stripped)).
Proof.
  intros Hb Hp.
  assert (flagKey f = TrimLeft (Flag.Name f) "no-") as Hkey.
  { unfold flagKey, sanitiseFlag. now rewrite Hb, Hp. }
  split; [exact Hkey|]. rewrite Hkey. split.
  - intros c t E. apply TrimLeft_head in E. cbn in E.
    repeat split; intros ->; discriminate.
  - apply HasPrefix_append in Hp as [x Hx].
    destruct (TrimLeft_split x "no-") as (pre & Epre & Hpre).
    exists ("no-" ++ pre). rewrite Hx.
    change (TrimLeft ("no-" ++ x) "no-") with (TrimLeft x "no-").
    split; [exact (f_equal (fun y => "no-" ++ y) Epre)|]. split.
    + rewrite length_append. cbn. lia.
    + rewrite bytes_append. apply Forall_app. split; [repeat constructor; tauto|].
      eapply Forall_impl; [exact Hpre|]. intros c Hc. cbn in Hc.
      destruct (Ascii.eqb_spec c "n"%char); [tauto|].
      destruct (Ascii.eqb_spec c "o"%char); [tauto|].
      destruct (Ascii.eqb_spec c "-"%char); [tauto|discriminate].
Qed.

Lemma X23_witness :
  flagKey (Flag.mk "no-notify" "" true false "" "") = "tify".
Proof.
  destruct (X23_inverted_name_strips_byte_set
              (Flag.mk "no-notify" "" true false "" "") eq_refl eq_refl) as [H _].
  rewrite H. reflexivity.
Defined.

(** X24.  Registration needs the maps made: on a command whose flag map
    is nil [AddFlag] panics on the assignment, and so it does, for a
    declaration with a shorthand, when only the shorthand map is nil;
    [AddArg] panics when the argument map is nil, and [Register] on the
    nil registry.  A nil command or a nil declaration is a nil
    dereference. *)
Theorem X24_registration_panics :
  (forall lc lf c f h,
      commands h !! lc = Some c -> flags h !! lf = Some f ->
      Command.Flags c = None ->
      AddFlag (Some lc) (Some lf) h = Panic NilMapAssignment) /\
  (forall lc lf c f g h,
      commands h !! lc = Some c -> flags h !! lf = Some f ->
      Command.Flags c = Some g -> g !! flagKey f = None ->
      Command.shorthandFlags c = None -> (sanitiseFlag f).1.1.2 <> "" ->
      AddFlag (Some lc) (Some lf) h = Panic NilMapAssignment) /\
  (forall lc la c a h,
      commands h !! lc = Some c -> args h !! la = Some a ->
      Command.Args c = None ->
      AddArg (Some lc) (Some la) h = Panic NilMapAssignment) /\
  (forall name version desc h,
      Register None name version desc h = Panic NilMapAssignment) /\
  (forall cmd h, AddFlag cmd None h = Panic NilDereference) /\
  (forall cmd h, AddArg cmd None h = Panic NilDereference) /\
  (forall lf f h, flags h !! lf = Some f ->
                  AddFlag None (Some lf) h = Panic NilDereference) /\
  (forall la a h, args h !! la = Some a ->
                  AddArg None (Some la) h = Panic NilDereference).
Proof.
  repeat split.
  - intros lc lf c f h Hc Hf Hnil. unfold AddFlag, derefFlag, derefCommand.
    rewrite (bind_Ret _ _ _ _ _ (deref_Some flags lf h f Hf)).
    destruct (sanitiseFlag f) as [[[name short] inverted] dflt].
    rewrite (bind_Ret _ _ _ _ _ (deref_Some commands lc h c Hc)).
    rewrite Hnil. reflexivity.
  - intros lc lf c f g h Hc Hf Hg Hk Hnil Hshort.
    unfold AddFlag, derefFlag, derefCommand.
    rewrite (bind_Ret _ _ _ _ _ (deref_Some flags lf h f Hf)).
    unfold flagKey in Hk.
    destruct (sanitiseFlag f) as [[[name short] inverted] dflt].
    cbn [fst snd] in Hk, Hshort.
    rewrite (bind_Ret _ _ _ _ _ (deref_Some commands lc h c Hc)).
    rewrite Hg, Hnil. cbn [maplookup]. rewrite Hk.
    destruct short as [|s0 srest]; [contradiction|]. reflexivity.
  - intros lc la c a h Hc Ha Hnil. unfold AddArg, derefArg, derefCommand.
    rewrite (bind_Ret _ _ _ _ _ (deref_Some args la h a Ha)).
    destruct (sanitiseArg a) as [[key variadic] dflt].
    rewrite (bind_Ret _ _ _ _ _ (deref_Some commands lc h c Hc)).
    rewrite Hnil. reflexivity.
  - intros lf f h Hf. unfold AddFlag, derefFlag.
    rewrite (bind_Ret _ _ _ _ _ (deref_Some flags lf h f Hf)).
    now destruct (sanitiseFlag f) as [[[name short] inverted] dflt].
  - intros la a h Ha. unfold AddArg, derefArg.
    rewrite (bind_Ret _ _ _ _ _ (deref_Some args la h a Ha)).
    now destruct (sanitiseArg a) as [[key variadic] dflt].
Qed.

Lemma X24_witness :
  AddFlag (Some 0) (Some 0)
    (mkHeap [Flag.mk "generate" "g" false false "" ""] []
       [Command.mk "generate" None None None []] [])
  = Panic NilMapAssignment.
Proof.
  apply (proj1 X24_registration_panics 0 0
           (Command.mk "generate" None None None [])
           (Flag.mk "generate" "g" false false "" "")); reflexivity.
Defined.

(** ** Further properties: the error messages and the registry-level entry *)

Lemma append_prefix_inj p s t : p ++ s = p ++ t -> s = t.
Proof.
  induction p as [|c p IH]; [trivial|]. intros H.
  apply IH. now injection H.
Qed.

Lemma append_suffix_inj s s' t : s ++ t = s' ++ t -> s = s'.
Proof.
  intros H. apply (f_equal rev_string) in H.
  rewrite !rev_string_append in H. apply append_prefix_inj in H.
  apply (f_equal rev_string) in H. now rewrite !rev_string_involutive in H.
Qed.

(** X25.  The message of an error tells the error: two errors with the
    same message are of the same kind and carry the same token. *)
Theorem X25_Error_message_injective e1 e2 :
  Error_Error e1 = Error_Error e2 -> e1 = e2.
Proof.
  destruct e1 as [n1|n1|n1], e2 as [n2|n2|n2]; unfold Error_Error; intros H;
    try discriminate H;
    apply append_prefix_inj, append_suffix_inj in H; now subst.
Qed.

Lemma X25_witness :
  ErrorUnknownFlag "-x" = ErrorUnknownFlag "-x".
Proof. apply (X25_Error_message_injective _ _). reflexivity. Defined.

(** X26.  The registry-level [Parse] runs the same pre-scan first: a
    flag-shaped entry is reported as unsupported, the first such entry
    by name, before the registry is looked at, whether or not any
    command is registered. *)
Theorem X26_Registry_Parse_prescan_first rest r pre value post h :
  Forall (fun val => isFlag val = false) pre -> isFlag value = true ->
  Registry_Parse rest r (pre ++ value :: post) h
  = Ret (None, Some (ErrorUnsupportedFlag value)) h.
Proof.
  intros Hpre E. unfold Registry_Parse.
  now rewrite (prescan_first pre value post Hpre E).
Qed.

Lemma X26_witness :
  Registry_Parse noRest None (["crn"] ++ "ab" :: ["x"]) emptyHeap
  = Ret (None, Some (ErrorUnsupportedFlag "ab")) emptyHeap.
Proof.
  apply (X26_Registry_Parse_prescan_first noRest None ["crn"] "ab" ["x"]).
  - repeat constructor.
  - reflexivity.
Defined.
